(** * Trace ingestion of the Move trace adapter

    A shallow embedding of
    [external-crates/move/crates/move-analyzer/trace-adapter/src/trace_utils.ts]:
    the JSON schema of a trace file, the canonical trace events, and the
    functions [traceValueFromJSON], [processJSONLocation] and [readTrace];
    then the definitions the statements are written with; then the lemmas
    and the properties of the ingestion pass.

    Conventions of the embedding.
    - A frame id and a program counter are integers of [Z], an index into a
      row is a [nat]; a number among the traced values is a JSON literal
      ([number]), which [String_number] rounds to a double and prints.
    - The [fields] object of a compound value is the list of the members of
      its JSON text as they are written; [Object_entries] lists the
      properties of the object [JSON.parse] builds of them in the order of
      [Object.entries].
    - A value that may be [undefined] is an [option]; a JavaScript array that
      may have holes is a [list (option A)], a hole being [None].
    - A [Map] keyed by frame id is a [gmap]; its keys are [option Z] because
      the code also reads and writes the key [frameIDs[frameIDs.length - 1]],
      which is [undefined] when no frame is open.
    - The loop of [readTrace] is a left fold of [processEvent] over the events,
      threading the four mutable variables of the function as a [State]. *)

From stdpp Require Import gmap strings list pretty sorting.

Local Open Scope Z_scope.

#[local] Set Warnings "-register-all".

(** * The embedding *)

(** ** Data types corresponding to the trace file JSON schema *)

(** A [number] among the values of the trace file, as its JSON literal
    [significand * 10 ^ exponent10]; an integer is the literal with
    exponent 0. *)
Record number := {
  significand : Z;
  exponent10 : Z
}.

Definition number_of_Z (n : Z) : number := {| significand := n; exponent10 := 0 |}.

Coercion number_of_Z : Z >-> number.

(** [JSONTraceValueType]: boolean | number | string | array | compound.
    The [fields] object of a compound is given by the members of the object
    literal of the trace file, in the order they are written there; the
    same key may be written more than once. *)
Inductive JSONTraceValueType : Type :=
| JBoolean (b : bool)
| JNumber (n : number)
| JString (s : string)
| JArray (items : list JSONTraceValueType)
| JCompound (fields : list (string * JSONTraceValueType))
            (type : string)
            (variant_name : option string)
            (variant_tag : option Z).

Record JSONTraceModule := {
  address : string;
  module_name : string
}.

Record JSONTraceType := {
  ref_type : option string;
  type_ : string
}.

Record JSONTraceRuntimeValue := {
  value : JSONTraceValueType
}.

Record JSONTraceValue := {
  RuntimeValue : JSONTraceRuntimeValue
}.

(** An entry of [parameters] is tested for truthiness by [readTrace]
    ([if (value)]), so an entry may be absent ([null]): [None]. *)
Record JSONTraceFrame := {
  binary_member_index : Z;
  frame_id : Z;
  function_name : string;
  is_native : bool;
  locals_types : list JSONTraceType;
  module : JSONTraceModule;
  parameters : list (option JSONTraceValue);
  return_types : list JSONTraceType;
  type_instantiation : list string
}.

Record JSONTraceOpenFrame := {
  frame : JSONTraceFrame;
  open_gas_left : Z
}.

Record JSONTraceInstruction := {
  instr_gas_left : Z;
  instruction : string;
  pc : Z
}.

(** [{Local: [frameId, index]}] *)
Record JSONTraceLocalLocation := {
  Local : Z * nat
}.

(** [JSONTraceLocation = JSONTraceLocalLocation | JSONTraceIndexedLocation],
    the latter being [{Indexed: [{Local: [frameId, index]}, extraIndex]}]. *)
Inductive JSONTraceLocation : Type :=
| LocalLocation (l : JSONTraceLocalLocation)
| IndexedLocation (Indexed : JSONTraceLocalLocation * Z).

Record JSONTraceWriteEffect := {
  write_location : JSONTraceLocation;
  root_value_after_write : JSONTraceValue
}.

Record JSONTraceReadEffect := {
  read_location : JSONTraceLocation;
  moved : bool;
  root_value_read : JSONTraceValue
}.

(** Push and Pop effects are never inspected by [readTrace]; the [snapshot]
    of a [MutRef] is left out. *)
Record JSONTraceStackEffect := {
  stack_RuntimeValue : option JSONTraceRuntimeValue;
  MutRef : option JSONTraceLocation
}.

Record JSONTraceEffect := {
  Push : option JSONTraceStackEffect;
  Pop : option JSONTraceStackEffect;
  Write : option JSONTraceWriteEffect;
  Read : option JSONTraceReadEffect
}.

Record JSONTraceCloseFrame := {
  close_frame_id : Z;
  close_gas_left : Z;
  return_ : list JSONTraceRuntimeValue
}.

(** Every tag of an event is optional, as in the interface: the object [{}]
    and an object with several tags are both values of this type. *)
Record JSONTraceEvent := {
  OpenFrame : option JSONTraceOpenFrame;
  Instruction : option JSONTraceInstruction;
  Effect : option JSONTraceEffect;
  CloseFrame : option JSONTraceCloseFrame
}.

(** The object [JSON.parse] returns.  The interface declares both fields,
    but nothing checks them at run time, so either may be missing. *)
Record JSONTraceRootObject := {
  events : option (list JSONTraceEvent);
  version : option Z
}.

(** ** Runtime data types *)

(** Modelled from the spec: [RuntimeValueType] and [IRuntimeCompundValue]
    are declared in [runtime.ts], which is not part of the sources at hand.
    A runtime value is a string, a sequence of runtime values, or a compound
    value with ordered named fields, a type name and the optional variant
    name and tag; the field names are those [traceValueFromJSON] writes. *)
Inductive RuntimeValueType : Type :=
| RString (s : string)
| RArray (items : list RuntimeValueType)
| RCompound (fields : list (string * RuntimeValueType))
            (type : string)
            (variantName : option string)
            (variantTag : option Z).

(** Modelled from the spec: [ModuleInfo] is declared in [utils.ts], which is
    not part of the sources at hand; [readTrace] builds it from an address
    and a name. *)
Record ModuleInfo := {
  addr : string;
  name : string
}.

(** [TraceValue], whose only kind is [TraceValKind.Runtime]. *)
Inductive TraceValue : Type :=
| RuntimeTraceValue (value : RuntimeValueType).

(** [TraceLocation], whose only kind is [TraceLocKind.Local].  [readTrace]
    stores the top of the frame stack in [frameId], which is [undefined]
    when the stack is empty. *)
Inductive TraceLocation : Type :=
| LocalTraceLocation (frameId : option Z) (localIndex : nat).

(** [EventEffect], whose only kind is [TraceEffectKind.Write]. *)
Inductive EventEffect : Type :=
| WriteEffect (location : TraceLocation) (value : TraceValue).

Inductive TraceEvent : Type :=
| OpenFrameEvent (id : Z) (name : string) (modInfo : ModuleInfo)
                 (localsTypes : list string) (paramValues : list TraceValue)
| CloseFrameEvent (id : Z)
| InstructionEvent (pc : Z)
| EffectEvent (effect : EventEffect).

(** [ITrace] *)
Record ITrace := {
  trace_events : list TraceEvent;
  trace_localLifetimeEnds : gmap (option Z) (list (option Z))
}.

(** ** JavaScript arrays with holes *)

Section js_array.
Context {A : Type}.

(** [arr[i]] *)
Definition array_get (arr : list (option A)) (i : nat) : option A :=
  match arr !! i with
  | Some x => x
  | None => None
  end.

(** [arr[i] = v]: in range the element is replaced, out of range the array
    grows to length [i + 1] and the slots in between are holes. *)
Definition array_set (arr : list (option A)) (i : nat) (v : A) : list (option A) :=
  if decide (i < length arr)%nat
  then <[i := Some v]> arr
  else arr ++ replicate (i - length arr) None ++ [Some v].
End js_array.

(** ** The value decoder *)

(** [String(value)] on a boolean. *)
Definition String_boolean (b : bool) : string :=
  if b then "true" else "false".

(** *** [String(value)] on a number

    [JSON.parse] turns the literal into the nearest IEEE 754 double, ties
    to even; [String] prints it as [Number::toString] of ECMAScript does,
    with the digits of the shortest decimal that reads back as that double,
    in positional notation from 1e-6 up to 1e21 and in exponent notation
    outside. *)

(** [x * 10 ^ p * 2 ^ q] with the negative powers left out; two such
    products are compared after the negative powers of each side are moved
    to the other side. *)
Definition scaled (x p q : Z) : Z := x * 10 ^ Z.max p 0 * 2 ^ Z.max q 0.

(** [x * 10 ^ p * 2 ^ q ?= y * 10 ^ p' * 2 ^ q'] for positive [x] and [y]. *)
Definition compareScaled (x p q y p' q' : Z) : comparison :=
  Z.compare (scaled x (p - p') (q - q')) (scaled y (p' - p) (q' - q)).

(** The double nearest to the positive rational [m * 10 ^ e], ties to even:
    [Some (M, E)] stands for [M * 2 ^ E] with [M < 2 ^ 53] and
    [-1074 <= E <= 971] ([M = 0] when the literal underflows), [None] for
    an overflow to [Infinity]. *)
Definition roundToDouble (m e : Z) : option (Z * Z) :=
  let num := m * 10 ^ Z.max e 0 in
  let den := 10 ^ Z.max (- e) 0 in
  let l := Z.log2 num - Z.log2 den in
  let L := match compareScaled num 0 0 den 0 l with Lt => l - 1 | _ => l end in
  let E := Z.max (L - 52) (-1074) in
  let N1 := num * 2 ^ Z.max (- E) 0 in
  let D1 := den * 2 ^ Z.max E 0 in
  let q := N1 / D1 in
  let r := N1 mod D1 in
  let M := match Z.compare (2 * r) D1 with
           | Gt => q + 1
           | Eq => if Z.even q then q else q + 1
           | Lt => q
           end in
  let '(M, E) := if M =? 2 ^ 53 then (2 ^ 52, E + 1) else (M, E) in
  if 971 <? E then None else Some (M, E).

(** The position [n] of the decimal point of [M * 2 ^ E], the least [n]
    from the given one on with [M * 2 ^ E < 10 ^ n]. *)
Fixpoint decimalPosition (fuel : nat) (n M E : Z) : Z :=
  match fuel with
  | O => n
  | S fuel =>
      match compareScaled M 0 E 1 n 0 with
      | Lt => n
      | _ => decimalPosition fuel (n + 1) M E
      end
  end.

(** The digits [s] and the position [n] of the shortest decimal
    [s * 10 ^ (n - k)] that rounds to the double [M * 2 ^ E]: the least
    number [k] of digits from the given one on, the decimal closest to the
    double if two have that length, the even one at a tie.  A decimal rounds
    to the double when it lies between the midpoints to its two neighbours,
    the midpoints included when [M] is even. *)
Fixpoint shortestDigits (fuel : nat) (k n0 M E : Z) : Z * Z :=
  let p := n0 - k in
  let s1 := scaled M (- p) E / scaled 1 p (- E) in
  let s2 := s1 + 1 in
  let below := if (M =? 2 ^ 52) && (-1074 <? E) then 1 else 2 in
  let inside s :=
    match compareScaled s p 0 (4 * M - below) 0 (E - 2),
          compareScaled s p 0 (4 * M + 2) 0 (E - 2) with
    | Gt, Lt => true
    | Eq, _ | _, Eq => Z.even M
    | _, _ => false
    end in
  let result s := (s, if s =? 10 ^ k then n0 + 1 else n0) in
  match fuel with
  | O => result s1
  | S fuel =>
      match inside s1, inside s2 with
      | true, false => result s1
      | false, true => result s2
      | true, true =>
          match compareScaled (s1 + s2) p 0 (8 * M) 0 (E - 2) with
          | Gt => result s1
          | Lt => result s2
          | Eq => if Z.even s1 then result s1 else result s2
          end
      | false, false => shortestDigits fuel (k + 1) n0 M E
      end
  end.

Fixpoint zeros (n : nat) : string :=
  match n with
  | O => ""
  | S n => "0" +:+ zeros n
  end.

Fixpoint stripZeros (fuel : nat) (s : Z) : Z :=
  match fuel with
  | O => s
  | S fuel => if (s mod 10 =? 0) && (0 <? s) then stripZeros fuel (s / 10) else s
  end.

(** The text of [Number::toString] for the digits [s] and the position
    [n] of the decimal point. *)
Definition formatDigits (s n : Z) : string :=
  let digits : string := pretty (stripZeros 400 s) in
  let k := Z.of_nat (String.length digits) in
  if (k <=? n) && (n <=? 21) then
    digits +:+ zeros (Z.to_nat (n - k))
  else if (0 <? n) && (n <=? 21) then
    String.substring 0 (Z.to_nat n) digits +:+ "." +:+
    String.substring (Z.to_nat n) (Z.to_nat (k - n)) digits
  else if (-6 <? n) && (n <=? 0) then
    "0." +:+ zeros (Z.to_nat (- n)) +:+ digits
  else
    let e := n - 1 in
    let exponent : string := (if e <? 0 then "-" else "+") +:+ pretty (Z.abs e) in
    if k =? 1 then digits +:+ "e" +:+ exponent
    else String.substring 0 1 digits +:+ "." +:+
         String.substring 1 (Z.to_nat (k - 1)) digits +:+ "e" +:+ exponent.

Definition String_number (x : number) : string :=
  let m := significand x in
  if m =? 0 then "0" else
  let sign : string := if m <? 0 then "-" else "" in
  match roundToDouble (Z.abs m) (exponent10 x) with
  | None => sign +:+ "Infinity"
  | Some (M, E) =>
      if M =? 0 then "0" else
      let n0 := decimalPosition 8 ((Z.log2 M + E) * 30103 / 100000 - 1) M E in
      let '(s, n) := shortestDigits 17 1 n0 M E in
      sign +:+ formatDigits s n
  end.

(** *** [Object.entries]

    The own properties of the object [JSON.parse] builds from the members
    of an object literal, in the order [Object.entries] lists them (the
    order of [OrdinaryOwnPropertyKeys] of ECMAScript). *)

(** The value of a decimal digit. *)
Definition digitValue (c : Ascii.ascii) : option N :=
  let code := Ascii.N_of_ascii c in
  if ((48 <=? code) && (code <=? 57))%N then Some (code - 48)%N else None.

Fixpoint digitsValue (s : string) (acc : N) : option N :=
  match s with
  | EmptyString => Some acc
  | String c rest =>
      match digitValue c with
      | Some d => digitsValue rest (10 * acc + d)%N
      | None => None
      end
  end.

(** A property key is an array index when it is the canonical decimal
    numeral (no sign, no leading zero) of an integer from 0 to 2^32 - 2. *)
Definition arrayIndex (key : string) : option N :=
  match key with
  | EmptyString => None
  | String c rest =>
      if (Ascii.N_of_ascii c =? 48)%N && negb (bool_decide (rest = EmptyString))
      then None
      else match digitsValue key 0 with
           | Some n => if (n <=? 4294967294)%N then Some n else None
           | None => None
           end
  end.

Section object_entries.
Context {V : Type}.

(** Defining the property [key]: a key that exists keeps its place and
    takes the new value, a new key goes last. *)
Fixpoint setProperty (properties : list (string * V)) (key : string) (v : V)
  : list (string * V) :=
  match properties with
  | [] => [(key, v)]
  | (key', v') :: rest =>
      if decide (key' = key) then (key', v) :: rest
      else (key', v') :: setProperty rest key v
  end.

(** The properties, in the order of their creation, of the object
    [JSON.parse] builds from the members of an object literal. *)
Definition createProperties (members : list (string * V)) : list (string * V) :=
  foldl (λ properties member, setProperty properties (fst member) (snd member))
        [] members.

(** Inserting a property with array index [i] into properties sorted by
    ascending index. *)
Fixpoint insertIndexed (i : N) (entry : string * V)
    (sorted : list (N * (string * V))) : list (N * (string * V)) :=
  match sorted with
  | [] => [(i, entry)]
  | (j, e) :: rest =>
      if (i <? j)%N then (i, entry) :: (j, e) :: rest
      else (j, e) :: insertIndexed i entry rest
  end.

(** The properties whose key is an array index, by ascending index. *)
Fixpoint indexEntries (properties : list (string * V)) : list (N * (string * V)) :=
  match properties with
  | [] => []
  | entry :: rest =>
      match arrayIndex (fst entry) with
      | Some i => insertIndexed i entry (indexEntries rest)
      | None => indexEntries rest
      end
  end.

(** The properties whose key is not an array index, in the order of their
    creation. *)
Fixpoint namedEntries (properties : list (string * V)) : list (string * V) :=
  match properties with
  | [] => []
  | entry :: rest =>
      match arrayIndex (fst entry) with
      | Some _ => namedEntries rest
      | None => entry :: namedEntries rest
      end
  end.

(** [Object.entries(object)]: the array indices in ascending order, then
    the other keys in the order of their creation. *)
Definition Object_entries (members : list (string * V)) : list (string * V) :=
  let properties := createProperties members in
  map snd (indexEntries properties) ++ namedEntries properties.
End object_entries.

(** Converts a JSON trace value to a runtime trace value.  The fields are
    decoded member by member and then put in the order of
    [Object.entries], which looks at the keys only ([traceValueFromJSON_compound]
    has the order of the source, [Object.entries] first). *)
Fixpoint traceValueFromJSON (value : JSONTraceValueType) : RuntimeValueType :=
  match value with
  | JBoolean b => RString (String_boolean b)
  | JNumber n => RString (String_number n)
  | JString s => RString s
  | JArray items => RArray (map traceValueFromJSON items)
  | JCompound fields type variant_name variant_tag =>
      RCompound
        (Object_entries
           (map (fun entry => match entry with
                              | (key, value) => (key, traceValueFromJSON value)
                              end) fields))
        type variant_name variant_tag
  end.

(** ** Ingestion of a trace *)

(** The mutable variables of [readTrace]: the canonical events pushed so
    far, the two lifetime tables and the stack of open frame ids (an array
    whose last element is the top). *)
Record State := {
  st_events : list TraceEvent;
  localLifetimeEnds : gmap (option Z) (list (option Z));
  locaLifetimeEndsMax : gmap (option Z) (list (option Z));
  frameIDs : list Z
}.

Definition initialState : State := {|
  st_events := [];
  localLifetimeEnds := ∅;
  locaLifetimeEndsMax := ∅;
  frameIDs := []
|}.

(** [map.get(key) || []]: an array is truthy, so the empty array is taken
    exactly when the key is absent. *)
Definition get_or_empty (m : gmap (option Z) (list (option Z))) (key : option Z)
  : list (option Z) :=
  default [] (m !! key).

(** [frameIDs[frameIDs.length - 1]] *)
Definition currentFrameID (frameIDs : list Z) : option Z := last frameIDs.

(** What [readTrace] throws. *)
Inductive Exception : Type :=
| SyntaxError   (* thrown by [JSON.parse] *)
| TypeError.    (* thrown by [for (... of undefined)] *)

(** The outcome of [JSON.parse(fs.readFileSync(traceFilePath, 'utf8'))]. *)
Inductive ParseOutcome : Type :=
| ParseThrows
| Parsed (traceJSON : JSONTraceRootObject).

Section ingestion.
(** [FRAME_LIFETIME] is imported from [utils.ts], which is not part of the
    sources at hand: the end of lifetime of a local that lives until the
    end of its frame. *)
Variable FRAME_LIFETIME : Z.

(** Processes a location in a JSON trace (sets the end of lifetime for a
    local variable) and returns the local index if the location is a local
    variable in the current frame.  The table is passed in and out. *)
Definition processJSONLocation
    (location : JSONTraceLocation)
    (localLifetimeEnds : gmap (option Z) (list (option Z)))
    (currentFrameID : option Z)
  : option nat * gmap (option Z) (list (option Z)) :=
  match location with
  | LocalLocation l =>
      let frameId := fst (Local l) in
      let localIndex := snd (Local l) in
      let lifetimeEnds := get_or_empty localLifetimeEnds (Some frameId) in
      let lifetimeEnds := array_set lifetimeEnds localIndex FRAME_LIFETIME in
      (Some localIndex, <[Some frameId := lifetimeEnds]> localLifetimeEnds)
  | IndexedLocation Indexed =>
      let frameId := fst (Local (fst Indexed)) in
      if decide (Some frameId = currentFrameID) then
        let localIndex := snd (Local (fst Indexed)) in
        let lifetimeEnds := get_or_empty localLifetimeEnds (Some frameId) in
        let lifetimeEnds := array_set lifetimeEnds localIndex FRAME_LIFETIME in
        (Some localIndex, <[Some frameId := lifetimeEnds]> localLifetimeEnds)
      else (None, localLifetimeEnds)
  end.

(** The loop over [frame.parameters] of the [OpenFrame] case, from index
    [i] on: the decoded values pushed to [paramValues] and the row
    [lifetimeEnds]. *)
Fixpoint processParameters
    (parameters : list (option JSONTraceValue)) (i : nat)
    (paramValues : list TraceValue) (lifetimeEnds : list (option Z))
  : list TraceValue * list (option Z) :=
  match parameters with
  | [] => (paramValues, lifetimeEnds)
  | None :: rest => processParameters rest (S i) paramValues lifetimeEnds
  | Some param :: rest =>
      let runtimeValue :=
        RuntimeTraceValue (traceValueFromJSON (value (RuntimeValue param))) in
      processParameters rest (S i)
        (paramValues ++ [runtimeValue])
        (array_set lifetimeEnds i FRAME_LIFETIME)
  end.

(** The test [lifetimeEnds[i] === undefined || lifetimeEnds[i] === FRAME_LIFETIME]. *)
Definition unset_or_alive (e : option Z) : bool :=
  match e with
  | None => true
  | Some x => bool_decide (x = FRAME_LIFETIME)
  end.

(** The test [lifetimeEndsMax[i] === undefined || lifetimeEndsMax[i] < pc]. *)
Definition unset_or_below (m : option Z) (pc : Z) : bool :=
  match m with
  | None => true
  | Some x => bool_decide (x < pc)
  end.

(** One iteration of the loop of the [Instruction] case, at slot [i]. *)
Definition instructionSlot (pc : Z) (rows : list (option Z) * list (option Z)) (i : nat)
  : list (option Z) * list (option Z) :=
  let lifetimeEnds := fst rows in
  let lifetimeEndsMax := snd rows in
  if unset_or_alive (array_get lifetimeEnds i) then
    if unset_or_below (array_get lifetimeEndsMax i) pc then
      (array_set lifetimeEnds i pc, array_set lifetimeEndsMax i pc)
    else rows
  else rows.

(** [for (let i = 0; i < lifetimeEnds.length; i++) ...]: an assignment in
    the body is at an index below the length, so the bound is that of the
    row on entry. *)
Definition instructionLoop (pc : Z) (lifetimeEnds lifetimeEndsMax : list (option Z))
  : list (option Z) * list (option Z) :=
  foldl (instructionSlot pc) (lifetimeEnds, lifetimeEndsMax)
        (seq 0 (length lifetimeEnds)).

Definition processOpenFrame (s : State) (open : JSONTraceOpenFrame) : State :=
  let frame := frame open in
  let localsTypes := map type_ (locals_types frame) in
  let lifetimeEnds := get_or_empty (localLifetimeEnds s) (Some (frame_id frame)) in
  let '(paramValues, lifetimeEnds) :=
    processParameters (parameters frame) 0 [] lifetimeEnds in
  {| st_events :=
       st_events s ++
       [OpenFrameEvent (frame_id frame) (function_name frame)
          {| addr := address (module frame); name := module_name (module frame) |}
          localsTypes paramValues];
     localLifetimeEnds := <[Some (frame_id frame) := lifetimeEnds]> (localLifetimeEnds s);
     locaLifetimeEndsMax := locaLifetimeEndsMax s;
     frameIDs := frameIDs s ++ [frame_id frame] |}.

Definition processCloseFrame (s : State) (close : JSONTraceCloseFrame) : State :=
  {| st_events := st_events s ++ [CloseFrameEvent (close_frame_id close)];
     localLifetimeEnds := localLifetimeEnds s;
     locaLifetimeEndsMax := locaLifetimeEndsMax s;
     frameIDs := removelast (frameIDs s) |}.

Definition processInstruction (s : State) (instr : JSONTraceInstruction) : State :=
  let currentFrameID := currentFrameID (frameIDs s) in
  let lifetimeEnds := get_or_empty (localLifetimeEnds s) currentFrameID in
  let lifetimeEndsMax := get_or_empty (locaLifetimeEndsMax s) currentFrameID in
  let rows := instructionLoop (pc instr) lifetimeEnds lifetimeEndsMax in
  {| st_events := st_events s ++ [InstructionEvent (pc instr)];
     localLifetimeEnds := <[currentFrameID := fst rows]> (localLifetimeEnds s);
     locaLifetimeEndsMax := <[currentFrameID := snd rows]> (locaLifetimeEndsMax s);
     frameIDs := frameIDs s |}.

(** The location an effect is processed at: that of [Write] when present,
    else that of [Read]; [None] when the effect has neither. *)
Definition effectLocation (effect : JSONTraceEffect) : option JSONTraceLocation :=
  match Write effect, Read effect with
  | Some w, _ => Some (write_location w)
  | None, Some r => Some (read_location r)
  | None, None => None
  end.

Definition processEffect (s : State) (effect : JSONTraceEffect) : State :=
  match effectLocation effect with
  | None => s
  | Some location =>
      let currentFrameID := currentFrameID (frameIDs s) in
      match processJSONLocation location (localLifetimeEnds s) currentFrameID with
      | (None, _) => s   (* [continue] *)
      | (Some localIndex, ends) =>
          let pushed :=
            match Write effect with
            | Some w =>
                let decoded :=
                  traceValueFromJSON
                    (value (RuntimeValue (root_value_after_write w))) in
                [EffectEvent
                   (WriteEffect (LocalTraceLocation currentFrameID localIndex)
                                (RuntimeTraceValue decoded))]
            | None => []
            end in
          {| st_events := st_events s ++ pushed;
             localLifetimeEnds := ends;
             locaLifetimeEndsMax := locaLifetimeEndsMax s;
             frameIDs := frameIDs s |}
      end
  end.

(** The body of the loop over [traceJSON.events]: the first tag present,
    in the order the code tests them, decides; an event with none of the
    four tags falls through every test. *)
Definition processEvent (s : State) (event : JSONTraceEvent) : State :=
  match OpenFrame event, CloseFrame event, Instruction event, Effect event with
  | Some open, _, _, _ => processOpenFrame s open
  | None, Some close, _, _ => processCloseFrame s close
  | None, None, Some instr, _ => processInstruction s instr
  | None, None, None, Some effect => processEffect s effect
  | None, None, None, None => s
  end.

Definition processEvents (s : State) (events : list JSONTraceEvent) : State :=
  foldl processEvent s events.

(** Reads a Move VM execution trace from a JSON file, given what parsing
    the file yields. *)
Definition readTrace (file : ParseOutcome) : Exception + ITrace :=
  match file with
  | ParseThrows => inl SyntaxError
  | Parsed traceJSON =>
      match events traceJSON with
      | None => inl TypeError
      | Some events =>
          let s := processEvents initialState events in
          inr {| trace_events := st_events s;
                 trace_localLifetimeEnds := localLifetimeEnds s |}
      end
  end.
End ingestion.

(** * Definitions for the statements *)

(** ** The lifetime analysis, slot by slot *)

(** What the [Instruction] case does to one slot, as a function of the end
    of life [e] and the maximal program counter [m] recorded for it. *)
Definition slotInstruction (FRAME_LIFETIME pc : Z) (em : option Z * option Z)
  : option Z * option Z :=
  if unset_or_alive FRAME_LIFETIME (fst em) && unset_or_below (snd em) pc
  then (Some pc, Some pc)
  else em.

(** The pair of entries of slot [i] in a pair of rows. *)
Definition slotOf (rows : list (option Z) * list (option Z)) (i : nat)
  : option Z * option Z :=
  (array_get (fst rows) i, array_get (snd rows) i).

(** ** Which case of the loop body an event takes *)

Definition isOpenFrame (event : JSONTraceEvent) (open : JSONTraceOpenFrame) : Prop :=
  OpenFrame event = Some open.

Definition isCloseFrame (event : JSONTraceEvent) (close : JSONTraceCloseFrame) : Prop :=
  OpenFrame event = None ∧ CloseFrame event = Some close.

Definition isInstruction (event : JSONTraceEvent) (instr : JSONTraceInstruction) : Prop :=
  OpenFrame event = None ∧ CloseFrame event = None ∧ Instruction event = Some instr.

Definition isEffect (event : JSONTraceEvent) (effect : JSONTraceEffect) : Prop :=
  OpenFrame event = None ∧ CloseFrame event = None ∧ Instruction event = None ∧
  Effect event = Some effect.

(** None of the four known tags. *)
Definition isUnknown (event : JSONTraceEvent) : Prop :=
  OpenFrame event = None ∧ CloseFrame event = None ∧ Instruction event = None ∧
  Effect event = None.

(** ** Building raw events *)

Definition rawValue (v : JSONTraceValueType) : JSONTraceValue :=
  {| RuntimeValue := {| value := v |} |}.

Definition rawOpenFrame (id : Z) (fname : string) (locals : list JSONTraceType)
    (params : list (option JSONTraceValue)) : JSONTraceEvent :=
  {| OpenFrame :=
       Some {| frame :=
                 {| binary_member_index := 0; frame_id := id;
                    function_name := fname; is_native := false;
                    locals_types := locals;
                    module := {| address := "0x1"; module_name := "m" |};
                    parameters := params; return_types := [];
                    type_instantiation := [] |};
               open_gas_left := 0 |};
     Instruction := None; Effect := None; CloseFrame := None |}.

Definition rawInstruction (pc : Z) : JSONTraceEvent :=
  {| OpenFrame := None;
     Instruction := Some {| instr_gas_left := 0; instruction := "NOP"; pc := pc |};
     Effect := None; CloseFrame := None |}.

Definition rawWrite (location : JSONTraceLocation) (v : JSONTraceValueType)
  : JSONTraceEvent :=
  {| OpenFrame := None; Instruction := None;
     Effect :=
       Some {| Push := None; Pop := None;
               Write := Some {| write_location := location;
                                root_value_after_write := rawValue v |};
               Read := None |};
     CloseFrame := None |}.

Definition rawRead (location : JSONTraceLocation) (v : JSONTraceValueType)
  : JSONTraceEvent :=
  {| OpenFrame := None; Instruction := None;
     Effect :=
       Some {| Push := None; Pop := None; Write := None;
               Read := Some {| read_location := location; moved := false;
                               root_value_read := rawValue v |} |};
     CloseFrame := None |}.

Definition rawCloseFrame (id : Z) : JSONTraceEvent :=
  {| OpenFrame := None; Instruction := None; Effect := None;
     CloseFrame := Some {| close_frame_id := id; close_gas_left := 0; return_ := [] |} |}.

(** The object [{}]. *)
Definition rawUnknown : JSONTraceEvent :=
  {| OpenFrame := None; Instruction := None; Effect := None; CloseFrame := None |}.

Definition localLocation (frameId : Z) (index : nat) : JSONTraceLocation :=
  LocalLocation {| Local := (frameId, index) |}.

Definition indexedLocation (frameId : Z) (index : nat) (extra : Z) : JSONTraceLocation :=
  IndexedLocation ({| Local := (frameId, index) |}, extra).

Definition traceFile (events : list JSONTraceEvent) (version : option Z) : ParseOutcome :=
  Parsed {| events := Some events; version := version |}.

(** ** A frame with a single slot *)

(** An operation on the only local of a frame: an instruction at some
    program counter, or a read or a write of the local. *)
Inductive slotOp : Type :=
| OpInstruction (pc : Z)
| OpRead (v : JSONTraceValueType)
| OpWrite (v : JSONTraceValueType).

(** The raw event of an operation on local 0 of frame [f]. *)
Definition rawOp (f : Z) (op : slotOp) : JSONTraceEvent :=
  match op with
  | OpInstruction pc => rawInstruction pc
  | OpRead v => rawRead (localLocation f 0) v
  | OpWrite v => rawWrite (localLocation f 0) v
  end.

(** Its action on the pair (end of life, maximal pc) of the slot. *)
Definition slotStep (FRAME_LIFETIME : Z) (em : option Z * option Z) (op : slotOp)
  : option Z * option Z :=
  match op with
  | OpInstruction pc => slotInstruction FRAME_LIFETIME pc em
  | OpRead _ | OpWrite _ => (Some FRAME_LIFETIME, snd em)
  end.

(** Frame [f] is the only open frame, its row has the single entry
    [fst em], and the maximal pc recorded for slot 0 is [snd em]. *)
Definition oneSlot (f : Z) (s : State) (em : option Z * option Z) : Prop :=
  frameIDs s = [f] ∧
  localLifetimeEnds s !! Some f = Some [fst em] ∧
  array_get (get_or_empty (locaLifetimeEndsMax s) (Some f)) 0 = snd em.

(** Frame [f] is the only open frame and its row has no slot yet. *)
Definition noSlot (f : Z) (s : State) : Prop :=
  frameIDs s = [f] ∧
  localLifetimeEnds s !! Some f = Some [] ∧
  array_get (get_or_empty (locaLifetimeEndsMax s) (Some f)) 0 = None.

(** The row of the only open frame [f]: without a slot, or with the single
    slot [em]. *)
Definition rowState (f : Z) (s : State) (slot : option (option Z * option Z)) : Prop :=
  match slot with
  | None => noSlot f s
  | Some em => oneSlot f s em
  end.

(** The action of an operation on such a row: an instruction finds no slot
    to update in an empty row, and the first access creates the slot. *)
Definition rowStep (FRAME_LIFETIME : Z) (slot : option (option Z * option Z))
    (op : slotOp) : option (option Z * option Z) :=
  match slot, op with
  | None, OpInstruction _ => None
  | None, (OpRead _ | OpWrite _) => Some (Some FRAME_LIFETIME, None)
  | Some em, _ => Some (slotStep FRAME_LIFETIME em op)
  end.

(** ** The loop scenario *)

(** The program counters of the loop body. *)
Definition loopBody : list Z := [10; 11; 12; 13; 14; 15; 16; 17; 18; 19; 20].

(** One pass over the loop body without any access to the local. *)
Definition loopPass : list slotOp := map OpInstruction loopBody.

(** One pass in which the instruction at [k] reads the local. *)
Definition loopPassReading (k : Z) : list slotOp :=
  flat_map (λ pc, if bool_decide (pc = k)
                  then [OpInstruction pc; OpRead (JNumber 0)]
                  else [OpInstruction pc]) loopBody.

(** Frame 1 has one local, its parameter; the loop body runs three times
    and the local is read in the second pass only, by the instruction at
    [k]. *)
Definition loopTrace (k : Z) : list JSONTraceEvent :=
  rawOpenFrame 1 "loop" [ {| ref_type := None; type_ := "u64" |} ]
               [Some (rawValue (JNumber 0))]
  :: map (rawOp 1) (loopPass ++ loopPassReading k ++ loopPass)
  ++ [rawCloseFrame 1].

(** The same run when the one local is not a parameter of the frame. *)
Definition loopTraceLocal (k : Z) : list JSONTraceEvent :=
  rawOpenFrame 1 "loop" [ {| ref_type := None; type_ := "u64" |} ] []
  :: map (rawOp 1) (loopPass ++ loopPassReading k ++ loopPass)
  ++ [rawCloseFrame 1].

(** ** The canonical events and the frame stack do not depend on the tables *)

(** The index [processJSONLocation] returns. *)
Definition resolveLocation (location : JSONTraceLocation) (currentFrameID : option Z)
  : option nat :=
  match location with
  | LocalLocation l => Some (snd (Local l))
  | IndexedLocation Indexed =>
      if decide (Some (fst (Local (fst Indexed))) = currentFrameID)
      then Some (snd (Local (fst Indexed)))
      else None
  end.

(** The frame id a location names. *)
Definition locationFrame (location : JSONTraceLocation) : Z :=
  match location with
  | LocalLocation l => fst (Local l)
  | IndexedLocation Indexed => fst (Local (fst Indexed))
  end.

(** The values the [OpenFrame] case pushes to [paramValues]. *)
Definition decodeParameters (parameters : list (option JSONTraceValue))
  : list TraceValue :=
  omap (fmap (λ param, RuntimeTraceValue (traceValueFromJSON (value (RuntimeValue param)))))
       parameters.

(** The canonical events one raw event adds, given the stack of open frames. *)
Definition emittedEvents (frameIDs : list Z) (event : JSONTraceEvent)
  : list TraceEvent :=
  match OpenFrame event, CloseFrame event, Instruction event, Effect event with
  | Some open, _, _, _ =>
      let frame := frame open in
      [OpenFrameEvent (frame_id frame) (function_name frame)
         {| addr := address (module frame); name := module_name (module frame) |}
         (map type_ (locals_types frame))
         (decodeParameters (parameters frame))]
  | None, Some close, _, _ => [CloseFrameEvent (close_frame_id close)]
  | None, None, Some instr, _ => [InstructionEvent (pc instr)]
  | None, None, None, Some effect =>
      match Write effect with
      | Some w =>
          match resolveLocation (write_location w) (currentFrameID frameIDs) with
          | Some localIndex =>
              [EffectEvent
                 (WriteEffect
                    (LocalTraceLocation (currentFrameID frameIDs) localIndex)
                    (RuntimeTraceValue
                       (traceValueFromJSON
                          (value (RuntimeValue (root_value_after_write w))))))]
          | None => []
          end
      | None => []
      end
  | None, None, None, None => []
  end.

(** The stack of open frames after one raw event. *)
Definition stackAfter (frameIDs : list Z) (event : JSONTraceEvent) : list Z :=
  match OpenFrame event, CloseFrame event with
  | Some open, _ => frameIDs ++ [frame_id (frame open)]
  | None, Some _ => removelast frameIDs
  | None, None => frameIDs
  end.

(** The stack of open frames the raw events leave, from the empty stack:
    every [OpenFrame] pushes its frame id, every [CloseFrame] pops. *)
Definition openFrames (raw : list JSONTraceEvent) : list Z :=
  foldl stackAfter [] raw.

(** ** The concrete scenario *)

(** A frame with one parameter, two instructions and a write to the
    parameter in between; the name of the function and the types of its
    locals are left open. *)
Definition scenario (fname : string) (locals : list JSONTraceType)
  : list JSONTraceEvent :=
  [ rawOpenFrame 1 fname locals [Some (rawValue (JNumber 42))];
    rawInstruction 0;
    rawWrite (localLocation 1 0) (JNumber 43);
    rawInstruction 1;
    rawCloseFrame 1 ].

(** The canonical events expected for it. *)
Definition scenarioEvents (fname : string) (locals : list JSONTraceType)
  : list TraceEvent :=
  [ OpenFrameEvent 1 fname {| addr := "0x1"; name := "m" |} (map type_ locals)
      [RuntimeTraceValue (RString "42")];
    InstructionEvent 0;
    EffectEvent (WriteEffect (LocalTraceLocation (Some 1) 0)
                             (RuntimeTraceValue (RString "43")));
    InstructionEvent 1;
    CloseFrameEvent 1 ].

(** ** Events that name a frame *)

(** An event that rewrites the row of frame [id] by naming the frame: an
    [OpenFrame] of that id, or a read or write effect whose location names
    that id. *)
Definition namesFrame (id : Z) (event : JSONTraceEvent) : bool :=
  match OpenFrame event, CloseFrame event, Instruction event, Effect event with
  | Some open, _, _, _ => bool_decide (frame_id (frame open) = id)
  | None, None, None, Some effect =>
      match effectLocation effect with
      | Some location => bool_decide (locationFrame location = id)
      | None => false
      end
  | _, _, _, _ => false
  end.

(** ** Counting write effects *)

(** The [Write] effect of a raw event, when the event is processed as an
    effect and has one. *)
Definition rawWriteOf (event : JSONTraceEvent) : option JSONTraceWriteEffect :=
  match OpenFrame event, CloseFrame event, Instruction event, Effect event with
  | None, None, None, Some effect => Write effect
  | _, _, _, _ => None
  end.

Definition isRawWrite (event : JSONTraceEvent) : bool :=
  match rawWriteOf event with Some _ => true | None => false end.

(** The number of [Write] effects of a raw trace. *)
Definition rawWriteCount (raw : list JSONTraceEvent) : nat :=
  length (List.filter isRawWrite raw).

Definition isWriteEvent (event : TraceEvent) : bool :=
  match event with
  | EffectEvent (WriteEffect _ _) => true
  | _ => false
  end.

(** The number of canonical [Write] events. *)
Definition writeEventCount (canonical : list TraceEvent) : nat :=
  length (List.filter isWriteEvent canonical).

(** The event is a [Write] effect whose location does not resolve against
    the top of the stack. *)
Definition isUnresolvedWrite (stack : list Z) (event : JSONTraceEvent) : bool :=
  match rawWriteOf event with
  | Some w =>
      match resolveLocation (write_location w) (currentFrameID stack) with
      | Some _ => false
      | None => true
      end
  | None => false
  end.

(** The number of [Write] effects of the raw events that do not resolve,
    each against the frames open when it is reached, from the given stack
    on. *)
Fixpoint unresolvedWritesFrom (stack : list Z) (raw : list JSONTraceEvent) : nat :=
  match raw with
  | [] => 0
  | event :: rest =>
      (if isUnresolvedWrite stack event then 1 else 0)
      + unresolvedWritesFrom (stackAfter stack event) rest
  end%nat.

Definition unresolvedWrites (raw : list JSONTraceEvent) : nat :=
  unresolvedWritesFrom [] raw.

(** ** The value decoder against its specification *)

(** The decoder as the specification words it: a scalar decodes to its
    text, an array element by element, and any other object to a compound
    value with the field names as they are declared, in that order, each
    field decoded, and the type and variant copied. *)
Inductive decodes : JSONTraceValueType → RuntimeValueType → Prop :=
| decodes_boolean b :
    decodes (JBoolean b) (RString (String_boolean b))
| decodes_number n :
    decodes (JNumber n) (RString (String_number n))
| decodes_string s :
    decodes (JString s) (RString s)
| decodes_array items decoded :
    Forall2 decodes items decoded →
    decodes (JArray items) (RArray decoded)
| decodes_compound fields decoded type variant_name variant_tag :
    Forall2 (λ entry result,
               fst entry = fst result ∧ decodes (snd entry) (snd result))
            fields decoded →
    decodes (JCompound fields type variant_name variant_tag)
            (RCompound decoded type variant_name variant_tag).

(** The callback of the source's [Object.entries(value.fields).map]. *)
Definition decodeField (entry : string * JSONTraceValueType)
  : string * RuntimeValueType :=
  match entry with
  | (key, value) => (key, traceValueFromJSON value)
  end.

(** The distinct keys of a list, each at its first occurrence. *)
Fixpoint firstOccurrences (keys : list string) : list string :=
  match keys with
  | [] => []
  | key :: rest => key :: filter (λ key', key' ≠ key) (firstOccurrences rest)
  end.

(** No key is declared twice and none is an array index. *)
Definition plainKeys (keys : list string) : bool :=
  bool_decide (NoDup keys) &&
  forallb (λ key, bool_decide (arrayIndex key = None)) keys.

(** The keys of every compound of the value, at any depth, are plain. *)
Fixpoint plainFields (value : JSONTraceValueType) : bool :=
  match value with
  | JBoolean _ | JNumber _ | JString _ => true
  | JArray items => forallb plainFields items
  | JCompound fields _ _ _ =>
      plainKeys (map fst fields) &&
      forallb (fun entry => match entry with
                            | (_, value) => plainFields value
                            end) fields
  end.

(** ** The two rows of a key *)

(** The row of lifetime ends and the row of maximal pcs stored under a key,
    as the [Instruction] case reads them. *)
Definition rowsAt (s : State) (key : option Z) : list (option Z) * list (option Z) :=
  (get_or_empty (localLifetimeEnds s) key, get_or_empty (locaLifetimeEndsMax s) key).

(** Whenever the end of life of a slot is a program counter, and not the
    sentinel, it is the maximal pc recorded for the slot. *)
Definition lifetimeConsistent (FRAME_LIFETIME : Z) (s : State) : Prop :=
  ∀ key (i : nat) e,
    fst (slotOf (rowsAt s key) i) = Some e → e ≠ FRAME_LIFETIME →
    snd (slotOf (rowsAt s key) i) = Some e.

(** ** Kinds of events *)

(** Kind of a trace event. *)
Inductive TraceEventKind : Type :=
| KindOpenFrame
| KindCloseFrame
| KindInstruction
| KindEffect.

#[global] Instance TraceEventKind_eq_dec : EqDecision TraceEventKind.
Proof. solve_decision. Defined.

(** The [type] field of a canonical event. *)
Definition eventKind (event : TraceEvent) : TraceEventKind :=
  match event with
  | OpenFrameEvent _ _ _ _ _ => KindOpenFrame
  | CloseFrameEvent _ => KindCloseFrame
  | InstructionEvent _ => KindInstruction
  | EffectEvent _ => KindEffect
  end.

(** The case of the loop body a raw event takes, if any. *)
Definition rawKind (event : JSONTraceEvent) : option TraceEventKind :=
  match OpenFrame event, CloseFrame event, Instruction event, Effect event with
  | Some _, _, _, _ => Some KindOpenFrame
  | None, Some _, _, _ => Some KindCloseFrame
  | None, None, Some _, _ => Some KindInstruction
  | None, None, None, Some _ => Some KindEffect
  | None, None, None, None => None
  end.

(** An event the loop body does nothing with: none of the four tags, or an
    effect that is neither a write nor a read (a push or a pop). *)
Definition isInert (event : JSONTraceEvent) : bool :=
  match OpenFrame event, CloseFrame event, Instruction event, Effect event with
  | None, None, None, None => true
  | None, None, None, Some effect =>
      match effectLocation effect with
      | Some _ => false
      | None => true
      end
  | _, _, _, _ => false
  end.

(** ** Properly nested traces *)

(** An event that neither opens nor closes a frame. *)
Definition keepsStack (event : JSONTraceEvent) : Prop :=
  OpenFrame event = None ∧ CloseFrame event = None.

(** Raw events in which every [OpenFrame] has its [CloseFrame] and frames
    do not cross, and nothing is closed that was not opened.  The ids of the
    two events are not compared, as [readTrace] does not compare them. *)
Inductive wellNested : list JSONTraceEvent → Prop :=
| wellNested_nil : wellNested []
| wellNested_step event rest :
    keepsStack event → wellNested rest → wellNested (event :: rest)
| wellNested_frame opening open body closing close rest :
    isOpenFrame opening open → isCloseFrame closing close →
    wellNested body → wellNested rest →
    wellNested (opening :: body ++ closing :: rest).

(** * Lemmas and properties *)

(** ** Arrays with holes: reading after writing *)

Section js_array_lemmas.
Context {A : Type}.
Implicit Types (arr : list (option A)) (i j : nat) (v : A).

Lemma array_get_ge arr i : (length arr ≤ i)%nat → array_get arr i = None.
Proof.
  intros Hle. unfold array_get. by rewrite lookup_ge_None_2.
Qed.

Lemma length_array_set arr i v :
  length (array_set arr i v) = (length arr `max` S i)%nat.
Proof.
  unfold array_set. case_decide.
  - rewrite length_insert. lia.
  - rewrite !length_app, length_replicate. simpl. lia.
Qed.

Lemma length_array_set_lt arr i v :
  (i < length arr)%nat → length (array_set arr i v) = length arr.
Proof. intros. rewrite length_array_set. lia. Qed.

Lemma array_get_set_eq arr i v : array_get (array_set arr i v) i = Some v.
Proof.
  unfold array_get, array_set. case_decide.
  - by rewrite list_lookup_insert_eq.
  - rewrite lookup_app_r by lia.
    rewrite lookup_app_r by (rewrite length_replicate; lia).
    rewrite length_replicate.
    by replace (i - length arr - (i - length arr))%nat with 0%nat by lia.
Qed.

Lemma array_get_set_ne arr i j v :
  i ≠ j → array_get (array_set arr i v) j = array_get arr j.
Proof.
  intros Hne. unfold array_get, array_set. case_decide.
  - by rewrite list_lookup_insert_ne.
  - destruct (decide (j < length arr)%nat).
    + by rewrite lookup_app_l.
    + rewrite (lookup_ge_None_2 arr j) by lia.
      rewrite lookup_app_r by lia.
      destruct (decide (j - length arr < i - length arr)%nat).
      * rewrite lookup_app_l by (rewrite length_replicate; lia).
        by rewrite lookup_replicate_2.
      * rewrite lookup_ge_None_2; [done|].
        rewrite length_app, length_replicate. simpl. lia.
Qed.

(** A row of length one is determined by its slot 0. *)
Lemma array_singleton arr : length arr = 1%nat → arr = [array_get arr 0].
Proof. by destruct arr as [|x [|y arr]]. Qed.
End js_array_lemmas.

(** ** The loop of the [Instruction] case *)

Section instruction_loop.
Variable FRAME_LIFETIME : Z.
Implicit Types (rows : list (option Z) * list (option Z)) (i j : nat) (pc : Z).

Lemma instructionSlot_self pc rows i :
  slotOf (instructionSlot FRAME_LIFETIME pc rows i) i
  = slotInstruction FRAME_LIFETIME pc (slotOf rows i).
Proof.
  unfold instructionSlot, slotInstruction, slotOf. simpl.
  destruct (unset_or_alive _ _); simpl; [|done].
  destruct (unset_or_below _ _); simpl; [|done].
  by rewrite !array_get_set_eq.
Qed.

Lemma instructionSlot_other pc rows i j :
  i ≠ j →
  slotOf (instructionSlot FRAME_LIFETIME pc rows i) j = slotOf rows j.
Proof.
  intros Hne. unfold instructionSlot, slotOf.
  destruct (unset_or_alive _ _); [|done].
  destruct (unset_or_below _ _); [|done].
  simpl. by rewrite !array_get_set_ne.
Qed.

Lemma instructionSlot_length pc rows i :
  (i < length (fst rows))%nat →
  length (fst (instructionSlot FRAME_LIFETIME pc rows i)) = length (fst rows).
Proof.
  intros Hlt. unfold instructionSlot.
  destruct (unset_or_alive _ _); [|done].
  destruct (unset_or_below _ _); [|done].
  simpl. by apply length_array_set_lt.
Qed.

(** Iterations at indices other than [j] leave slot [j] alone. *)
Lemma foldl_instructionSlot_other pc (l : list nat) rows j :
  j ∉ l →
  slotOf (foldl (instructionSlot FRAME_LIFETIME pc) rows l) j = slotOf rows j.
Proof.
  revert rows. induction l as [|i l IH]; intros rows Hj; [done|].
  apply not_elem_of_cons in Hj as [Hne Hj]. simpl.
  rewrite IH by done. by apply instructionSlot_other.
Qed.

(** The iteration at index [j], met once, is the only one that counts. *)
Lemma foldl_instructionSlot_self pc (l : list nat) rows j :
  NoDup l → j ∈ l →
  slotOf (foldl (instructionSlot FRAME_LIFETIME pc) rows l) j
  = slotInstruction FRAME_LIFETIME pc (slotOf rows j).
Proof.
  revert rows. induction l as [|i l IH]; intros rows Hnd Hj.
  { by apply elem_of_nil in Hj. }
  apply NoDup_cons in Hnd as [Hi Hnd]. simpl.
  apply elem_of_cons in Hj as [->|Hj].
  - rewrite foldl_instructionSlot_other by done.
    apply instructionSlot_self.
  - rewrite IH by done.
    rewrite instructionSlot_other; [done|]. intros ->. done.
Qed.

Lemma foldl_instructionSlot_length pc (l : list nat) rows :
  Forall (λ i, (i < length (fst rows))%nat) l →
  length (fst (foldl (instructionSlot FRAME_LIFETIME pc) rows l))
  = length (fst rows).
Proof.
  revert rows. induction l as [|i l IH]; intros rows Hall; [done|].
  apply Forall_cons in Hall as [Hi Hall]. simpl.
  rewrite IH; [by apply instructionSlot_length|].
  rewrite instructionSlot_length by done. done.
Qed.

(** The loop of the [Instruction] case on slot [i] of the row. *)
Lemma instructionLoop_slot pc (lifetimeEnds lifetimeEndsMax : list (option Z)) i :
  (i < length lifetimeEnds)%nat →
  slotOf (instructionLoop FRAME_LIFETIME pc lifetimeEnds lifetimeEndsMax) i
  = slotInstruction FRAME_LIFETIME pc (slotOf (lifetimeEnds, lifetimeEndsMax) i).
Proof.
  intros Hlt. unfold instructionLoop.
  apply foldl_instructionSlot_self.
  - apply NoDup_seq.
  - apply elem_of_seq. lia.
Qed.

(** Beyond the length of the row the loop touches nothing. *)
Lemma instructionLoop_beyond pc (lifetimeEnds lifetimeEndsMax : list (option Z)) i :
  (length lifetimeEnds ≤ i)%nat →
  slotOf (instructionLoop FRAME_LIFETIME pc lifetimeEnds lifetimeEndsMax) i
  = slotOf (lifetimeEnds, lifetimeEndsMax) i.
Proof.
  intros Hle. unfold instructionLoop.
  apply foldl_instructionSlot_other.
  rewrite elem_of_seq. lia.
Qed.

Lemma instructionLoop_length pc (lifetimeEnds lifetimeEndsMax : list (option Z)) :
  length (fst (instructionLoop FRAME_LIFETIME pc lifetimeEnds lifetimeEndsMax))
  = length lifetimeEnds.
Proof.
  unfold instructionLoop.
  rewrite foldl_instructionSlot_length; [done|].
  apply Forall_forall. intros i Hi. apply elem_of_seq in Hi. simpl. lia.
Qed.
End instruction_loop.

(** ** The cases of the loop body; folding over a trace *)

Section dispatch.
Variable FRAME_LIFETIME : Z.
Implicit Types (s : State) (event : JSONTraceEvent).

Lemma processEvent_open s event open :
  isOpenFrame event open →
  processEvent FRAME_LIFETIME s event = processOpenFrame FRAME_LIFETIME s open.
Proof. unfold isOpenFrame, processEvent. by intros ->. Qed.

Lemma processEvent_close s event close :
  isCloseFrame event close →
  processEvent FRAME_LIFETIME s event = processCloseFrame s close.
Proof. unfold processEvent. by intros [-> ->]. Qed.

Lemma processEvent_instruction s event instr :
  isInstruction event instr →
  processEvent FRAME_LIFETIME s event = processInstruction FRAME_LIFETIME s instr.
Proof. unfold processEvent. by intros (-> & -> & ->). Qed.

Lemma processEvent_effect s event effect :
  isEffect event effect →
  processEvent FRAME_LIFETIME s event = processEffect FRAME_LIFETIME s effect.
Proof. unfold processEvent. by intros (-> & -> & -> & ->). Qed.

Lemma processEvent_unknown s event :
  isUnknown event → processEvent FRAME_LIFETIME s event = s.
Proof. unfold processEvent. by intros (-> & -> & -> & ->). Qed.

Lemma processEvents_app s (events1 events2 : list JSONTraceEvent) :
  processEvents FRAME_LIFETIME s (events1 ++ events2)
  = processEvents FRAME_LIFETIME (processEvents FRAME_LIFETIME s events1) events2.
Proof. apply foldl_app. Qed.

Lemma processEvents_cons s event (events : list JSONTraceEvent) :
  processEvents FRAME_LIFETIME s (event :: events)
  = processEvents FRAME_LIFETIME (processEvent FRAME_LIFETIME s event) events.
Proof. done. Qed.

Lemma processEvents_snoc s (events : list JSONTraceEvent) event :
  processEvents FRAME_LIFETIME s (events ++ [event])
  = processEvent FRAME_LIFETIME (processEvents FRAME_LIFETIME s events) event.
Proof. by rewrite processEvents_app. Qed.
End dispatch.

(** ** A frame with a single slot *)

Section one_slot.
Variable FRAME_LIFETIME : Z.
Variable f : Z.
Implicit Types (s : State) (em : option Z * option Z).

Lemma oneSlot_open fname locals param :
  oneSlot f
    (processEvent FRAME_LIFETIME initialState
       (rawOpenFrame f fname locals [Some param]))
    (Some FRAME_LIFETIME, None).
Proof.
  unfold oneSlot. simpl. split; [done|]. split.
  - by rewrite lookup_insert_eq.
  - done.
Qed.

Lemma oneSlot_step s em op :
  oneSlot f s em →
  oneSlot f (processEvent FRAME_LIFETIME s (rawOp f op))
            (slotStep FRAME_LIFETIME em op).
Proof.
  intros (Hstack & Hends & Hmax).
  destruct op as [pc|v|v]; unfold oneSlot; simpl.
  - (* instruction *)
    unfold processEvent, processInstruction; simpl.
    rewrite Hstack. change (currentFrameID [f]) with (Some f).
    split; [done|].
    set (rowMax := get_or_empty (locaLifetimeEndsMax s) (Some f)) in *.
    replace (get_or_empty (localLifetimeEnds s) (Some f)) with [fst em]
      by (unfold get_or_empty; by rewrite Hends).
    pose proof (instructionLoop_slot FRAME_LIFETIME pc [fst em] rowMax 0) as Hslot.
    pose proof (instructionLoop_length FRAME_LIFETIME pc [fst em] rowMax) as Hlen.
    unfold slotOf in Hslot. simpl in Hslot, Hlen.
    rewrite Hmax in Hslot.
    assert (slotInstruction FRAME_LIFETIME pc (array_get [fst em] 0, snd em)
            = slotInstruction FRAME_LIFETIME pc em) as Heq by by destruct em.
    rewrite Heq in Hslot. specialize (Hslot ltac:(lia)).
    split.
    + rewrite lookup_insert_eq, (array_singleton _ Hlen).
      by rewrite <- Hslot.
    + unfold get_or_empty. rewrite lookup_insert_eq. simpl. by rewrite <- Hslot.
  - (* read *)
    unfold processEvent, processEffect; simpl.
    split; [done|]. rewrite lookup_insert_eq.
    unfold get_or_empty at 1. rewrite Hends. done.
  - (* write *)
    unfold processEvent, processEffect; simpl.
    split; [done|]. rewrite lookup_insert_eq.
    unfold get_or_empty at 1. rewrite Hends. done.
Qed.

Lemma oneSlot_run s em (ops : list slotOp) :
  oneSlot f s em →
  oneSlot f (processEvents FRAME_LIFETIME s (map (rawOp f) ops))
            (foldl (slotStep FRAME_LIFETIME) em ops).
Proof.
  revert s em. induction ops as [|op ops IH]; intros s em Hs; [done|].
  simpl. apply IH. by apply oneSlot_step.
Qed.
Lemma noSlot_open fname locals :
  noSlot f (processEvent FRAME_LIFETIME initialState (rawOpenFrame f fname locals [])).
Proof.
  unfold noSlot. simpl. split; [done|]. split; [|done].
  by rewrite lookup_insert_eq.
Qed.

Lemma rowState_step s slot op :
  rowState f s slot →
  rowState f (processEvent FRAME_LIFETIME s (rawOp f op))
             (rowStep FRAME_LIFETIME slot op).
Proof.
  destruct slot as [em|]; simpl.
  { apply oneSlot_step. }
  intros (Hstack & Hends & Hmax).
  destruct op as [pc|v|v]; simpl.
  - (* an instruction on the empty row *)
    unfold noSlot, processEvent, processInstruction; simpl.
    rewrite Hstack. change (currentFrameID [f]) with (Some f).
    split; [done|].
    replace (get_or_empty (localLifetimeEnds s) (Some f)) with (@nil (option Z))
      by (unfold get_or_empty; by rewrite Hends).
    unfold instructionLoop. simpl. split.
    + by rewrite lookup_insert_eq.
    + unfold get_or_empty at 1. by rewrite lookup_insert_eq.
  - (* the first read *)
    unfold oneSlot, processEvent, processEffect; simpl.
    split; [done|]. rewrite lookup_insert_eq.
    unfold get_or_empty at 1. rewrite Hends. done.
  - (* the first write *)
    unfold oneSlot, processEvent, processEffect; simpl.
    split; [done|]. rewrite lookup_insert_eq.
    unfold get_or_empty at 1. rewrite Hends. done.
Qed.

Lemma rowState_run s slot (ops : list slotOp) :
  rowState f s slot →
  rowState f (processEvents FRAME_LIFETIME s (map (rawOp f) ops))
             (foldl (rowStep FRAME_LIFETIME) slot ops).
Proof.
  revert s slot. induction ops as [|op ops IH]; intros s slot Hs; [done|].
  simpl. apply IH. by apply rowState_step.
Qed.
End one_slot.

(** ** Instructions on one slot *)

Section slot_instruction.
Variable FRAME_LIFETIME : Z.
Implicit Types (pc x : Z) (m : option Z).

(** The end of life is set and the local has not been accessed since. *)
Lemma slotInstruction_dead pc x m :
  x ≠ FRAME_LIFETIME →
  slotInstruction FRAME_LIFETIME pc (Some x, m) = (Some x, m).
Proof.
  intros Hx. unfold slotInstruction. simpl.
  by rewrite bool_decide_eq_false_2.
Qed.

Lemma slotInstruction_unset pc m :
  unset_or_below m pc = true →
  slotInstruction FRAME_LIFETIME pc (None, m) = (Some pc, Some pc).
Proof. intros Hm. unfold slotInstruction. simpl. by rewrite Hm. Qed.

Lemma slotInstruction_alive_first pc :
  slotInstruction FRAME_LIFETIME pc (Some FRAME_LIFETIME, None)
  = (Some pc, Some pc).
Proof.
  unfold slotInstruction. simpl. by rewrite bool_decide_eq_true_2.
Qed.

Lemma slotInstruction_alive_below pc x :
  x < pc →
  slotInstruction FRAME_LIFETIME pc (Some FRAME_LIFETIME, Some x)
  = (Some pc, Some pc).
Proof.
  intros Hx. unfold slotInstruction. simpl.
  by rewrite !bool_decide_eq_true_2.
Qed.

Lemma slotInstruction_alive_above pc x :
  ¬ x < pc →
  slotInstruction FRAME_LIFETIME pc (Some FRAME_LIFETIME, Some x)
  = (Some FRAME_LIFETIME, Some x).
Proof.
  intros Hx. unfold slotInstruction. simpl.
  rewrite bool_decide_eq_true_2 by done.
  by rewrite bool_decide_eq_false_2.
Qed.
End slot_instruction.

Ltac slot_eval Hsentinel :=
  cbn [foldl slotStep fst snd];
  repeat first
    [ rewrite slotInstruction_alive_first
    | rewrite slotInstruction_alive_below by (clear; lia)
    | rewrite slotInstruction_alive_above by (clear; lia)
    | rewrite (slotInstruction_dead _ _ (Z.pos _)) by (clear - Hsentinel; lia)
    | progress cbn [fst snd] ].

Lemma loop_slot_run FRAME_LIFETIME k :
  ¬ (10 ≤ FRAME_LIFETIME ≤ 20) → 10 ≤ k ≤ 20 →
  fst (foldl (slotStep FRAME_LIFETIME) (Some FRAME_LIFETIME, None)
         (loopPass ++ loopPassReading k ++ loopPass))
  = Some (if bool_decide (k < 20) then k + 1 else 11).
Proof.
  intros Hsentinel Hk.
  assert (k = 10 ∨ k = 11 ∨ k = 12 ∨ k = 13 ∨ k = 14 ∨ k = 15 ∨ k = 16 ∨
          k = 17 ∨ k = 18 ∨ k = 19 ∨ k = 20) as Hcases by lia.
  clear Hk.
  repeat (destruct Hcases as [->|Hcases]); [..|subst k];
    (match goal with
     | |- context [loopPass ++ loopPassReading ?k ++ loopPass] =>
         let ops := eval vm_compute in (loopPass ++ loopPassReading k ++ loopPass) in
         change (loopPass ++ loopPassReading k ++ loopPass) with ops
     end);
    slot_eval Hsentinel; reflexivity.
Qed.

Lemma loop_row_run_local FRAME_LIFETIME k :
  ¬ (10 ≤ FRAME_LIFETIME ≤ 20) → 10 ≤ k ≤ 20 →
  foldl (rowStep FRAME_LIFETIME) None (loopPass ++ loopPassReading k ++ loopPass)
  = Some (Some (if bool_decide (k < 20) then k + 1 else 10),
          Some (if bool_decide (k < 20) then k + 1 else 10)).
Proof.
  intros Hsentinel Hk.
  assert (k = 10 ∨ k = 11 ∨ k = 12 ∨ k = 13 ∨ k = 14 ∨ k = 15 ∨ k = 16 ∨
          k = 17 ∨ k = 18 ∨ k = 19 ∨ k = 20) as Hcases by lia.
  clear Hk.
  repeat (destruct Hcases as [->|Hcases]); [..|subst k];
    (match goal with
     | |- context [loopPass ++ loopPassReading ?k ++ loopPass] =>
         let ops := eval vm_compute in (loopPass ++ loopPassReading k ++ loopPass) in
         change (loopPass ++ loopPassReading k ++ loopPass) with ops
     end);
    cbn [foldl rowStep]; slot_eval Hsentinel; reflexivity.
Qed.

(** ** Canonical events and frame stack, apart from the tables *)

Section skeleton.
Variable FRAME_LIFETIME : Z.
Implicit Types (s : State) (event : JSONTraceEvent).

Lemma processJSONLocation_index location ends current :
  fst (processJSONLocation FRAME_LIFETIME location ends current)
  = resolveLocation location current.
Proof.
  destruct location as [l|ix]; simpl; [done|]. by case_decide.
Qed.

(** A location that does not resolve leaves the table as it is. *)
Lemma processJSONLocation_unresolved location ends current :
  resolveLocation location current = None →
  processJSONLocation FRAME_LIFETIME location ends current = (None, ends).
Proof.
  destruct location as [l|ix]; simpl; [done|]. by case_decide.
Qed.

(** A location that resolves marks one slot of the row it names alive. *)
Lemma processJSONLocation_resolved location ends current localIndex :
  resolveLocation location current = Some localIndex →
  processJSONLocation FRAME_LIFETIME location ends current
  = (Some localIndex,
     <[Some (locationFrame location) :=
         array_set (get_or_empty ends (Some (locationFrame location)))
                   localIndex FRAME_LIFETIME]> ends).
Proof.
  destruct location as [l|ix]; simpl.
  - by intros [= <-].
  - case_decide; [|done]. by intros [= <-].
Qed.

Lemma processParameters_values parameters i paramValues lifetimeEnds :
  fst (processParameters FRAME_LIFETIME parameters i paramValues lifetimeEnds)
  = paramValues ++ decodeParameters parameters.
Proof.
  revert i paramValues lifetimeEnds.
  induction parameters as [|[param|] rest IH]; intros i paramValues lifetimeEnds;
    simpl.
  - by rewrite app_nil_r.
  - rewrite IH. by rewrite <- app_assoc.
  - apply IH.
Qed.

Lemma processEvent_events s event :
  st_events (processEvent FRAME_LIFETIME s event)
  = st_events s ++ emittedEvents (frameIDs s) event.
Proof.
  unfold processEvent, emittedEvents.
  destruct (OpenFrame event) as [open|].
  { unfold processOpenFrame.
    pose proof (processParameters_values (parameters (frame open)) 0 []
                  (get_or_empty (localLifetimeEnds s) (Some (frame_id (frame open)))))
      as Hvalues.
    destruct (processParameters _ _ _ _ _) as [paramValues lifetimeEnds].
    simpl in *. by rewrite Hvalues. }
  destruct (CloseFrame event) as [close|]; [done|].
  destruct (Instruction event) as [instr|]; [done|].
  destruct (Effect event) as [effect|]; [|by rewrite app_nil_r].
  unfold processEffect, effectLocation.
  destruct (Write effect) as [w|].
  - pose proof (processJSONLocation_index (write_location w) (localLifetimeEnds s)
                  (currentFrameID (frameIDs s))) as Hindex.
    destruct (processJSONLocation _ _ _ _) as [[localIndex|] ends];
      simpl in Hindex; rewrite <- Hindex; [done|by rewrite app_nil_r].
  - destruct (Read effect) as [r|]; [|by rewrite app_nil_r].
    destruct (processJSONLocation _ _ _ _) as [[localIndex|] ends]; simpl;
      by rewrite app_nil_r.
Qed.

Lemma processEvent_frameIDs s event :
  frameIDs (processEvent FRAME_LIFETIME s event) = stackAfter (frameIDs s) event.
Proof.
  unfold processEvent, stackAfter.
  destruct (OpenFrame event) as [open|].
  { unfold processOpenFrame. by destruct (processParameters _ _ _ _ _). }
  destruct (CloseFrame event) as [close|]; [done|].
  destruct (Instruction event) as [instr|]; [done|].
  destruct (Effect event) as [effect|]; [|done].
  unfold processEffect.
  destruct (effectLocation effect) as [location|]; [|done].
  by destruct (processJSONLocation _ _ _ _) as [[localIndex|] ends].
Qed.
End skeleton.

(** The canonical events and the stack are those of any other run over the
    same raw events from a state with the same events and stack, whatever
    the sentinel and the tables are. *)
Lemma processEvents_skeleton FL1 FL2 (events : list JSONTraceEvent) s1 s2 :
  st_events s1 = st_events s2 → frameIDs s1 = frameIDs s2 →
  st_events (processEvents FL1 s1 events) = st_events (processEvents FL2 s2 events) ∧
  frameIDs (processEvents FL1 s1 events) = frameIDs (processEvents FL2 s2 events).
Proof.
  revert s1 s2. induction events as [|event events IH]; intros s1 s2 Hev Hst; [done|].
  simpl. apply IH.
  - rewrite !processEvent_events. by rewrite Hev, Hst.
  - rewrite !processEvent_frameIDs. by rewrite Hst.
Qed.

(** The stack is the one the raw events leave: every [OpenFrame] has
    pushed its frame id, every [CloseFrame] has popped. *)
Lemma processEvents_frameIDs FL (raw : list JSONTraceEvent) :
  frameIDs (processEvents FL initialState raw) = openFrames raw.
Proof.
  unfold openFrames.
  induction raw as [|event raw IH] using rev_ind; [done|].
  by rewrite processEvents_snoc, foldl_app, processEvent_frameIDs, IH.
Qed.

(** ** Instructions and the end of life (C1) *)

Lemma readTrace_parsed FL (raw : list JSONTraceEvent) (version : option Z) :
  readTrace FL (Parsed {| events := Some raw; version := version |})
  = inr {| trace_events := st_events (processEvents FL initialState raw);
           trace_localLifetimeEnds :=
             localLifetimeEnds (processEvents FL initialState raw) |}.
Proof. done. Qed.

Lemma processInstruction_slot FL s instr f i :
  currentFrameID (frameIDs s) = Some f →
  (i < length (get_or_empty (localLifetimeEnds s) (Some f)))%nat →
  let s' := processInstruction FL s instr in
  slotOf (get_or_empty (localLifetimeEnds s') (Some f),
          get_or_empty (locaLifetimeEndsMax s') (Some f)) i
  = slotInstruction FL (pc instr)
      (slotOf (get_or_empty (localLifetimeEnds s) (Some f),
               get_or_empty (locaLifetimeEndsMax s) (Some f)) i).
Proof.
  intros Htop Hlt. simpl. unfold processInstruction. simpl.
  rewrite Htop. unfold get_or_empty at 1 4. rewrite !lookup_insert_eq. simpl.
  rewrite <- (instructionLoop_slot FL (pc instr) _ _ i Hlt).
  by destruct (instructionLoop _ _ _ _).
Qed.

Lemma loopTrace_row FL k :
  ¬ (10 ≤ FL ≤ 20) → 10 ≤ k ≤ 20 →
  localLifetimeEnds (processEvents FL initialState (loopTrace k)) !! Some 1
  = Some [Some (if bool_decide (k < 20) then k + 1 else 11)].
Proof.
  intros Hsentinel Hk. unfold loopTrace.
  rewrite processEvents_cons, processEvents_app.
  pose proof (oneSlot_run FL 1 _ _ (loopPass ++ loopPassReading k ++ loopPass)
                (oneSlot_open FL 1 "loop" [ {| ref_type := None; type_ := "u64" |} ]
                   (rawValue (JNumber 0)))) as (_ & Hrow & _).
  rewrite loop_slot_run in Hrow by done.
  simpl. exact Hrow.
Qed.

Lemma loopTraceLocal_row FL k :
  ¬ (10 ≤ FL ≤ 20) → 10 ≤ k ≤ 20 →
  localLifetimeEnds (processEvents FL initialState (loopTraceLocal k)) !! Some 1
  = Some [Some (if bool_decide (k < 20) then k + 1 else 10)].
Proof.
  intros Hsentinel Hk. unfold loopTraceLocal.
  rewrite processEvents_cons, processEvents_app.
  pose proof (rowState_run FL 1 _ None (loopPass ++ loopPassReading k ++ loopPass)
                (noSlot_open FL 1 "loop" [ {| ref_type := None; type_ := "u64" |} ]))
    as Hrow.
  rewrite loop_row_run_local in Hrow by done.
  destruct Hrow as (_ & Hrow & _). simpl. exact Hrow.
Qed.

(** C1, as the code has it.  While frame [f] is the topmost open frame, an
    [Instruction(pc)] event sets both the end of life and the maximal pc of a
    slot of the row of [f] whose end of life is unset or [FRAME_LIFETIME] to
    [pc] exactly when the maximal pc of the slot is unset or below [pc], and
    leaves both entries as they are otherwise.  In the loop scenario (one
    local; the body at pcs 10 to 20 runs three times; the instruction at
    [k] of the second pass reads the local) the recorded end of life is the
    pc of the first instruction after the read that is above the maximal pc
    recorded before: [k + 1] for [k < 20]; for [k = 20] it is [11] when the
    local is the parameter of the frame and [10] when it is not.  It is at
    least 20 only for [k = 19]. *)
Theorem C1_instruction_end_of_life FL :
  (∀ s event instr f i,
     isInstruction event instr →
     currentFrameID (frameIDs s) = Some f →
     let row := get_or_empty (localLifetimeEnds s) (Some f) in
     let rowMax := get_or_empty (locaLifetimeEndsMax s) (Some f) in
     let s' := processEvent FL s event in
     let row' := get_or_empty (localLifetimeEnds s') (Some f) in
     let rowMax' := get_or_empty (locaLifetimeEndsMax s') (Some f) in
     (i < length row)%nat →
     array_get row i = None ∨ array_get row i = Some FL →
     ((array_get rowMax i = None ∨ ∃ m, array_get rowMax i = Some m ∧ m < pc instr) →
      array_get row' i = Some (pc instr) ∧ array_get rowMax' i = Some (pc instr)) ∧
     (¬ (array_get rowMax i = None ∨ ∃ m, array_get rowMax i = Some m ∧ m < pc instr) →
      array_get row' i = array_get row i ∧ array_get rowMax' i = array_get rowMax i)) ∧
  (∀ k version,
     ¬ (10 ≤ FL ≤ 20) → 10 ≤ k ≤ 20 →
     ∃ trace end_of_life,
       readTrace FL (traceFile (loopTrace k) version) = inr trace ∧
       trace_localLifetimeEnds trace !! Some 1 = Some [Some end_of_life] ∧
       end_of_life = (if bool_decide (k < 20) then k + 1 else 11) ∧
       (20 ≤ end_of_life ↔ k = 19)) ∧
  (∀ k version,
     ¬ (10 ≤ FL ≤ 20) → 10 ≤ k ≤ 20 →
     ∃ trace end_of_life,
       readTrace FL (traceFile (loopTraceLocal k) version) = inr trace ∧
       trace_localLifetimeEnds trace !! Some 1 = Some [Some end_of_life] ∧
       end_of_life = (if bool_decide (k < 20) then k + 1 else 10) ∧
       (20 ≤ end_of_life ↔ k = 19)).
Proof.
  split.
  - intros s event instr f i Hinstr Htop row rowMax s' row' rowMax' Hlt Halive.
    pose proof (processInstruction_slot FL s instr f i Htop Hlt) as Hslot.
    cbv zeta in Hslot.
    rewrite <- (processEvent_instruction FL s event instr Hinstr) in Hslot.
    fold s' in Hslot. fold row' rowMax' row rowMax in Hslot.
    unfold slotOf, slotInstruction in Hslot. simpl in Hslot.
    assert (unset_or_alive FL (array_get row i) = true) as Ha.
    { destruct Halive as [-> | ->]; simpl; [done|]. by apply bool_decide_eq_true_2. }
    rewrite Ha in Hslot.
    simpl in Hslot. split.
    + intros Hbelow.
      assert (unset_or_below (array_get rowMax i) (pc instr) = true) as Hb.
      { destruct Hbelow as [-> | (m & -> & Hm)]; simpl; [done|].
        by apply bool_decide_eq_true_2. }
      rewrite Hb in Hslot. by injection Hslot.
    + intros Hnot.
      assert (unset_or_below (array_get rowMax i) (pc instr) = false) as Hb.
      { destruct (array_get rowMax i) as [m|] eqn:Hm; simpl.
        - apply bool_decide_eq_false_2. intros Hlt'. apply Hnot. right. by exists m.
        - exfalso. apply Hnot. by left. }
      rewrite Hb in Hslot. by injection Hslot.
  - split; intros k version Hsentinel Hk.
    + eexists _, _. unfold traceFile. rewrite readTrace_parsed. simpl.
      split; [done|]. split; [by apply loopTrace_row|]. split; [done|].
      case_bool_decide; lia.
    + eexists _, _. unfold traceFile. rewrite readTrace_parsed. simpl.
      split; [done|]. split; [by apply loopTraceLocal_row|]. split; [done|].
      case_bool_decide; lia.
Qed.

(** At the sentinel [-1], a first instruction after the frame is opened, and
    the loop with the read at pc 12. *)
Lemma C1_instruction_end_of_life_witness :
  (let s := processEvents (-1) initialState
              [rawOpenFrame 1 "f" [] [Some (rawValue (JNumber 7))]] in
   let s' := processEvent (-1) s (rawInstruction 10) in
   array_get (get_or_empty (localLifetimeEnds s') (Some 1)) 0 = Some 10 ∧
   array_get (get_or_empty (locaLifetimeEndsMax s') (Some 1)) 0 = Some 10) ∧
  (∃ trace end_of_life,
     readTrace (-1) (traceFile (loopTrace 12) (Some 1)) = inr trace ∧
     trace_localLifetimeEnds trace !! Some 1 = Some [Some end_of_life] ∧
     end_of_life = 13 ∧ (20 ≤ end_of_life ↔ 12 = 19)) ∧
  (∃ trace end_of_life,
     readTrace (-1) (traceFile (loopTraceLocal 20) (Some 1)) = inr trace ∧
     trace_localLifetimeEnds trace !! Some 1 = Some [Some end_of_life] ∧
     end_of_life = 10 ∧ (20 ≤ end_of_life ↔ 20 = 19)).
Proof.
  destruct (C1_instruction_end_of_life (-1)) as (Hstep & Hloop & Hlocal).
  split; [|split].
  - refine (proj1 (Hstep _ (rawInstruction 10)
                     {| instr_gas_left := 0; instruction := "NOP"; pc := 10 |}
                     1 0%nat _ _ _ _) _).
    + done.
    + reflexivity.
    + vm_compute. lia.
    + right. reflexivity.
    + left. reflexivity.
  - apply (Hloop 12 (Some 1)); lia.
  - apply (Hlocal 20 (Some 1)); lia.
Defined.

(** C1, as the specification states it, fails: with the read at pc 12 of the second
    pass, the end of life recorded for the local is 13, below 20. *)
Lemma C1_counterexample :
  ∃ trace,
    readTrace (-1) (traceFile (loopTrace 12) (Some 1)) = inr trace ∧
    trace_localLifetimeEnds trace !! Some 1 = Some [Some 13] ∧
    ¬ (20 ≤ 13).
Proof.
  eexists. split; [reflexivity|]. split; [by vm_compute|lia].
Qed.

(** ** The concrete scenario (C2) *)

Lemma scenario_slot FL fname locals (n : nat) :
  (1 ≤ n ≤ 4)%nat →
  oneSlot 1 (processEvents FL initialState (take n (scenario fname locals)))
    (foldl (slotStep FL) (Some FL, None)
       (take (n - 1) [OpInstruction 0; OpWrite (JNumber 43); OpInstruction 1])).
Proof.
  intros Hn.
  assert (take n (scenario fname locals)
          = rawOpenFrame 1 fname locals [Some (rawValue (JNumber 42))]
            :: map (rawOp 1)
                 (take (n - 1) [OpInstruction 0; OpWrite (JNumber 43); OpInstruction 1]))
    as ->.
  { destruct n as [|[|[|[|[|n]]]]]; try lia; reflexivity. }
  rewrite processEvents_cons. apply oneSlot_run, oneSlot_open.
Qed.

(** C2.  Whatever the sentinel and the version are, [readTrace] turns the
    concrete scenario into exactly the five canonical events; the row of
    frame 1 is [[FRAME_LIFETIME]] right after the write is processed, it is
    [[1]] when [CloseFrame] is reached, [CloseFrame] leaves it as it is, and
    that is the row returned. *)
Theorem C2_concrete_scenario FL version fname locals :
  let raw := scenario fname locals in
  ∃ trace,
    readTrace FL (traceFile raw version) = inr trace ∧
    trace_events trace = scenarioEvents fname locals ∧
    localLifetimeEnds (processEvents FL initialState (take 3 raw)) !! Some 1
    = Some [Some FL] ∧
    localLifetimeEnds (processEvents FL initialState (take 4 raw)) !! Some 1
    = Some [Some 1] ∧
    localLifetimeEnds (processEvents FL initialState raw)
    = localLifetimeEnds (processEvents FL initialState (take 4 raw)) ∧
    trace_localLifetimeEnds trace !! Some 1 = Some [Some 1].
Proof.
  intros raw.
  pose proof (scenario_slot FL fname locals 3 ltac:(lia)) as (_ & Hwrite & _).
  pose proof (scenario_slot FL fname locals 4 ltac:(lia)) as (_ & Hlast & _).
  fold raw in Hwrite, Hlast.
  assert (localLifetimeEnds (processEvents FL initialState raw)
          = localLifetimeEnds (processEvents FL initialState (take 4 raw)))
    as Hclose.
  { change raw with (take 4 raw ++ [rawCloseFrame 1]) at 1.
    by rewrite processEvents_snoc. }
  assert (foldl (slotStep FL) (Some FL, None)
            (take (3 - 1) [OpInstruction 0; OpWrite (JNumber 43); OpInstruction 1])
          = (Some FL, Some 0)) as Hslot3.
  { cbn [Nat.sub take foldl slotStep].
    by rewrite slotInstruction_alive_first. }
  assert (foldl (slotStep FL) (Some FL, None)
            (take (4 - 1) [OpInstruction 0; OpWrite (JNumber 43); OpInstruction 1])
          = (Some 1, Some 1)) as Hslot4.
  { cbn [Nat.sub take foldl slotStep].
    rewrite slotInstruction_alive_first. cbn [snd].
    by rewrite slotInstruction_alive_below by lia. }
  rewrite Hslot3 in Hwrite. rewrite Hslot4 in Hlast.
  eexists. unfold traceFile. rewrite readTrace_parsed. split; [done|].
  cbn [trace_events trace_localLifetimeEnds].
  split.
  { rewrite (proj1 (processEvents_skeleton FL 0 raw initialState initialState
                      eq_refl eq_refl)).
    by vm_compute. }
  split; [exact Hwrite|]. split; [exact Hlast|]. split; [exact Hclose|].
  rewrite Hclose. exact Hlast.
Qed.

(** ** Errors: what is thrown and what is not (C3, C4, C6) *)

(** The canonical events only grow. *)
Lemma processEvents_events_prefix FL (raw : list JSONTraceEvent) s :
  ∃ pushed, st_events (processEvents FL s raw) = st_events s ++ pushed.
Proof.
  revert s. induction raw as [|event raw IH]; intros s.
  - exists []. by rewrite app_nil_r.
  - simpl. destruct (IH (processEvent FL s event)) as [pushed ->].
    rewrite processEvent_events. eexists. by rewrite <- app_assoc.
Qed.

(** C3, as the code has it.  [readTrace] throws when the file is not valid
    JSON (the [SyntaxError] of [JSON.parse]) and when the parsed object has
    no [events] (a [TypeError]), and then returns nothing.  The [version]
    field is never looked at: with [events] present the call returns the
    trace of these events, whatever [version] is and also when it is
    missing. *)
Theorem C3_fatal_errors FL :
  readTrace FL ParseThrows = inl SyntaxError ∧
  (∀ version,
     readTrace FL (Parsed {| events := None; version := version |}) = inl TypeError) ∧
  (∀ raw version,
     readTrace FL (Parsed {| events := Some raw; version := version |})
     = inr {| trace_events := st_events (processEvents FL initialState raw);
              trace_localLifetimeEnds :=
                localLifetimeEnds (processEvents FL initialState raw) |}) ∧
  (∀ raw version1 version2,
     readTrace FL (Parsed {| events := Some raw; version := version1 |})
     = readTrace FL (Parsed {| events := Some raw; version := version2 |})).
Proof. done. Qed.

(** C3, as the specification states it, fails: a file with version 999, and a file
    without a version, are read like any other, and their events are
    processed. *)
Lemma C3_counterexample :
  (∃ trace,
     readTrace (-1) (Parsed {| events := Some (scenario "f" []); version := Some 999 |})
     = inr trace ∧ trace_events trace = scenarioEvents "f" []) ∧
  (∃ trace,
     readTrace (-1) (Parsed {| events := Some (scenario "f" []); version := None |})
     = inr trace ∧ trace_events trace = scenarioEvents "f" []).
Proof.
  split; (eexists; split; [reflexivity|by vm_compute]).
Qed.

(** C4, as the code has it.  An event with none of the four known tags
    falls through every case of the loop body: it leaves the state as it
    is, the trace is read as if the event were not there, and nothing is
    thrown. *)
Theorem C4_unknown_event_skipped FL pre event post version :
  isUnknown event →
  processEvents FL initialState (pre ++ [event]) = processEvents FL initialState pre ∧
  readTrace FL (traceFile (pre ++ event :: post) version)
  = readTrace FL (traceFile (pre ++ post) version) ∧
  ∃ trace, readTrace FL (traceFile (pre ++ event :: post) version) = inr trace.
Proof.
  intros Hunknown. split.
  { rewrite processEvents_snoc. by apply processEvent_unknown. }
  unfold traceFile. rewrite !readTrace_parsed.
  rewrite !processEvents_app, processEvents_cons.
  rewrite (processEvent_unknown FL _ event Hunknown).
  split; [done|]. by eexists.
Qed.

(** The object [{}] between two instructions. *)
Lemma C4_unknown_event_skipped_witness :
  isUnknown rawUnknown ∧
  readTrace (-1) (traceFile ([rawInstruction 0] ++ rawUnknown :: [rawInstruction 1]) (Some 1))
  = readTrace (-1) (traceFile ([rawInstruction 0] ++ [rawInstruction 1]) (Some 1)).
Proof.
  assert (isUnknown rawUnknown) as Hunknown by (unfold isUnknown; simpl; done).
  split; [exact Hunknown|].
  exact (proj1 (proj2 (C4_unknown_event_skipped (-1) [rawInstruction 0] rawUnknown
                         [rawInstruction 1] (Some 1) Hunknown))).
Defined.

(** C4, as the specification states it, fails: the scenario with the object [{}]
    between its events is read without any error, into the same events. *)
Lemma C4_counterexample :
  ∃ trace,
    readTrace (-1)
      (traceFile (take 2 (scenario "f" []) ++ rawUnknown :: drop 2 (scenario "f" []))
                 (Some 1))
    = inr trace ∧ trace_events trace = scenarioEvents "f" [].
Proof.
  eexists. split; [reflexivity|by vm_compute].
Qed.

(** C6, as the code has it.  A [CloseFrame] event pushes [CloseFrame] with
    the id of the event and pops the top of the stack, without comparing
    the two; the tables are left as they are, and reading the trace throws
    nothing. *)
Theorem C6_close_frame_unchecked FL s event close pre post version :
  isCloseFrame event close →
  processEvent FL s event
  = {| st_events := st_events s ++ [CloseFrameEvent (close_frame_id close)];
       localLifetimeEnds := localLifetimeEnds s;
       locaLifetimeEndsMax := locaLifetimeEndsMax s;
       frameIDs := removelast (frameIDs s) |} ∧
  ∃ trace,
    readTrace FL (traceFile (pre ++ event :: post) version) = inr trace ∧
    trace_events trace !! length (st_events (processEvents FL initialState pre))
    = Some (CloseFrameEvent (close_frame_id close)).
Proof.
  intros Hclose. split.
  { by rewrite (processEvent_close FL s event close Hclose). }
  eexists. unfold traceFile. rewrite readTrace_parsed. split; [done|].
  cbn [trace_events].
  rewrite processEvents_app, processEvents_cons.
  destruct (processEvents_events_prefix FL post
              (processEvent FL (processEvents FL initialState pre) event))
    as [pushed ->].
  rewrite (processEvent_close FL _ event close Hclose).
  unfold processCloseFrame. cbn [st_events].
  rewrite <- app_assoc. by rewrite lookup_app_r, Nat.sub_diag by lia.
Qed.

(** Frame 1 is open and a [CloseFrame] of frame 2 arrives. *)
Lemma C6_close_frame_unchecked_witness :
  isCloseFrame (rawCloseFrame 2)
    {| close_frame_id := 2; close_gas_left := 0; return_ := [] |} ∧
  ∃ trace,
    readTrace (-1)
      (traceFile ([rawOpenFrame 1 "f" [] []] ++ rawCloseFrame 2 :: []) (Some 1))
    = inr trace ∧
    trace_events trace
      !! length (st_events (processEvents (-1) initialState [rawOpenFrame 1 "f" [] []]))
    = Some (CloseFrameEvent 2).
Proof.
  assert (isCloseFrame (rawCloseFrame 2)
            {| close_frame_id := 2; close_gas_left := 0; return_ := [] |})
    as Hclose by (unfold isCloseFrame; simpl; done).
  split; [exact Hclose|].
  exact (proj2 (C6_close_frame_unchecked (-1) initialState (rawCloseFrame 2)
                  {| close_frame_id := 2; close_gas_left := 0; return_ := [] |}
                  [rawOpenFrame 1 "f" [] []] [] (Some 1) Hclose)).
Defined.

(** C6, as the specification states it, fails: closing frame 1 while frame 2 is on top
    is not detected; frame 2 is popped, and the next instruction is
    accounted to frame 1. *)
Lemma C6_counterexample :
  ∃ trace,
    readTrace (-1)
      (traceFile [ rawOpenFrame 1 "f" [] [Some (rawValue (JNumber 7))];
                   rawOpenFrame 2 "g" [] [Some (rawValue (JNumber 8))];
                   rawCloseFrame 1;
                   rawInstruction 5 ] (Some 1))
    = inr trace ∧
    trace_events trace
    = [ OpenFrameEvent 1 "f" {| addr := "0x1"; name := "m" |} []
          [RuntimeTraceValue (RString "7")];
        OpenFrameEvent 2 "g" {| addr := "0x1"; name := "m" |} []
          [RuntimeTraceValue (RString "8")];
        CloseFrameEvent 1;
        InstructionEvent 5 ] ∧
    trace_localLifetimeEnds trace !! Some 1 = Some [Some 5] ∧
    trace_localLifetimeEnds trace !! Some 2 = Some [Some (-1)].
Proof.
  eexists. split; [reflexivity|]. by vm_compute.
Qed.

(** ** Rows of closed frames (C5) *)

Lemma currentFrameID_elem_of (stack : list Z) (f : Z) :
  currentFrameID stack = Some f → f ∈ stack.
Proof.
  unfold currentFrameID. intros Hlast.
  apply last_Some in Hlast as [stack' ->]. set_solver.
Qed.

Lemma elem_of_removelast (stack : list Z) (f : Z) :
  f ∈ removelast stack → f ∈ stack.
Proof.
  induction stack as [|g stack IH]; simpl; [done|].
  destruct stack as [|h stack]; [by intros ?%elem_of_nil|].
  intros [->|Hin]%elem_of_cons; [left|right; by apply IH].
Qed.

(** While frame [id] is not open, an event that does not name it leaves
    its row alone, and the frame stays closed. *)
Lemma processEvent_row_untouched FL s event id :
  id ∉ frameIDs s → namesFrame id event = false →
  localLifetimeEnds (processEvent FL s event) !! Some id
  = localLifetimeEnds s !! Some id ∧
  id ∉ frameIDs (processEvent FL s event).
Proof.
  intros Hclosed Hnames. unfold namesFrame in Hnames.
  rewrite processEvent_frameIDs. unfold processEvent, stackAfter.
  destruct (OpenFrame event) as [open|].
  { apply bool_decide_eq_false_1 in Hnames. unfold processOpenFrame.
    destruct (processParameters _ _ _ _ _) as [paramValues lifetimeEnds]. simpl.
    split.
    - rewrite lookup_insert_ne; [done|]. congruence.
    - rewrite elem_of_app, list_elem_of_singleton. intros [?|?]; congruence. }
  destruct (CloseFrame event) as [close|].
  { split; [done|]. intros Hin. by apply Hclosed, elem_of_removelast. }
  destruct (Instruction event) as [instr|].
  { split; [|done]. unfold processInstruction. simpl.
    rewrite lookup_insert_ne; [done|].
    intros Htop. apply Hclosed. by apply currentFrameID_elem_of. }
  destruct (Effect event) as [effect|]; [|done].
  split; [|done]. unfold processEffect.
  destruct (effectLocation effect) as [location|]; [|done].
  apply bool_decide_eq_false_1 in Hnames.
  destruct (resolveLocation location (currentFrameID (frameIDs s)))
    as [localIndex|] eqn:Hresolve.
  - rewrite (processJSONLocation_resolved FL _ _ _ _ Hresolve). simpl.
    rewrite lookup_insert_ne; [done|]. congruence.
  - by rewrite (processJSONLocation_unresolved FL _ _ _ Hresolve).
Qed.

Lemma processEvents_row_untouched FL (later : list JSONTraceEvent) s id :
  id ∉ frameIDs s → forallb (λ event, negb (namesFrame id event)) later = true →
  localLifetimeEnds (processEvents FL s later) !! Some id
  = localLifetimeEnds s !! Some id.
Proof.
  revert s. induction later as [|event later IH]; intros s Hclosed Hlater; [done|].
  simpl in Hlater. apply andb_true_iff in Hlater as [Hevent Hlater].
  apply negb_true_iff in Hevent.
  destruct (processEvent_row_untouched FL s event id Hclosed Hevent) as [Hrow Hclosed'].
  simpl. rewrite IH by done. exact Hrow.
Qed.

(** C5, as the code has it.  A [CloseFrame] event leaves the lifetime table
    as it is.  If the frame [id] is no longer open after it, the later
    events leave the row of [id] as it is as long as none of them names the
    frame again, by an [OpenFrame] with that id or by a read or write effect
    whose location carries that id. *)
Theorem C5_closed_row_kept FL s event close id later :
  isCloseFrame event close →
  let closed := processEvent FL s event in
  id ∉ frameIDs closed →
  forallb (λ event, negb (namesFrame id event)) later = true →
  localLifetimeEnds closed = localLifetimeEnds s ∧
  localLifetimeEnds (processEvents FL closed later) !! Some id
  = localLifetimeEnds closed !! Some id.
Proof.
  intros Hclose closed Hclosed Hlater. split.
  - unfold closed. by rewrite (processEvent_close FL s event close Hclose).
  - by apply processEvents_row_untouched.
Qed.

(** Frame 1 is closed with the row [[5]]; frame 2 then runs and writes its
    own local. *)
Lemma C5_closed_row_kept_witness :
  let s := processEvents (-1) initialState
             [rawOpenFrame 1 "f" [] [Some (rawValue (JNumber 7))]; rawInstruction 5] in
  let closed := processEvent (-1) s (rawCloseFrame 1) in
  let later := [ rawOpenFrame 2 "g" [] [Some (rawValue (JNumber 8))];
                 rawInstruction 9;
                 rawWrite (localLocation 2 0) (JNumber 3);
                 rawCloseFrame 2 ] in
  (1 ∉ frameIDs closed) ∧
  localLifetimeEnds closed = localLifetimeEnds s ∧
  localLifetimeEnds (processEvents (-1) closed later) !! Some 1
  = localLifetimeEnds closed !! Some 1.
Proof.
  intros s closed later.
  assert (1 ∉ frameIDs closed) as Hclosed by (vm_compute; apply not_elem_of_nil).
  split; [exact Hclosed|].
  apply (C5_closed_row_kept (-1) s (rawCloseFrame 1)
           {| close_frame_id := 1; close_gas_left := 0; return_ := [] |} 1 later).
  - unfold isCloseFrame. simpl. done.
  - exact Hclosed.
  - reflexivity.
Defined.

(** C5, as the specification states it, fails: once frame 1 is closed with the row
    [[5]], opening a frame with id 1 again rewrites the row, and so does a
    write whose location names frame 1 while frame 2 is open. *)
Lemma C5_counterexample :
  let closed := processEvents (-1) initialState
                  [ rawOpenFrame 1 "f" [] [Some (rawValue (JNumber 7))];
                    rawInstruction 5;
                    rawCloseFrame 1 ] in
  localLifetimeEnds closed !! Some 1 = Some [Some 5] ∧
  localLifetimeEnds
    (processEvents (-1) closed [rawOpenFrame 1 "f" [] [Some (rawValue (JNumber 7))]])
    !! Some 1 = Some [Some (-1)] ∧
  localLifetimeEnds
    (processEvents (-1) closed
       [ rawOpenFrame 2 "g" [] []; rawWrite (localLocation 1 0) (JNumber 3) ])
    !! Some 1 = Some [Some (-1)].
Proof. by vm_compute. Qed.

(** ** Dropped effects and the number of writes (C7) *)

Lemma writeEventCount_app (canonical1 canonical2 : list TraceEvent) :
  writeEventCount (canonical1 ++ canonical2)
  = (writeEventCount canonical1 + writeEventCount canonical2)%nat.
Proof. unfold writeEventCount. by rewrite List.filter_app, length_app. Qed.

Lemma rawWriteCount_app (raw1 raw2 : list JSONTraceEvent) :
  rawWriteCount (raw1 ++ raw2) = (rawWriteCount raw1 + rawWriteCount raw2)%nat.
Proof. unfold rawWriteCount. by rewrite List.filter_app, length_app. Qed.

Lemma unresolvedWritesFrom_app stack (raw1 raw2 : list JSONTraceEvent) :
  unresolvedWritesFrom stack (raw1 ++ raw2)
  = (unresolvedWritesFrom stack raw1
     + unresolvedWritesFrom (foldl stackAfter stack raw1) raw2)%nat.
Proof.
  revert stack. induction raw1 as [|event raw1 IH]; intros stack; simpl; [done|].
  rewrite IH. lia.
Qed.

(** A write effect adds one canonical write when its location resolves and
    none when it does not; no other raw event adds one. *)
Lemma emittedEvents_writes stack event :
  (writeEventCount (emittedEvents stack event)
   + (if isUnresolvedWrite stack event then 1 else 0))%nat
  = rawWriteCount [event].
Proof.
  unfold emittedEvents, rawWriteCount, writeEventCount, isUnresolvedWrite,
    isRawWrite, rawWriteOf.
  simpl.
  destruct (OpenFrame event) as [open|]; [done|].
  destruct (CloseFrame event) as [close|]; [done|].
  destruct (Instruction event) as [instr|]; [done|].
  destruct (Effect event) as [effect|]; [|done].
  destruct (Write effect) as [w|]; [|done].
  by destruct (resolveLocation _ _).
Qed.

(** The canonical writes and the writes that do not resolve are together
    the write effects of the raw trace. *)
Lemma processEvents_writes FL (raw : list JSONTraceEvent) s :
  (writeEventCount (st_events (processEvents FL s raw))
   + unresolvedWritesFrom (frameIDs s) raw)%nat
  = (writeEventCount (st_events s) + rawWriteCount raw)%nat.
Proof.
  revert s. induction raw as [|event raw IH]; intros s.
  { unfold rawWriteCount. simpl. lia. }
  rewrite processEvents_cons. cbn [unresolvedWritesFrom].
  specialize (IH (processEvent FL s event)).
  rewrite processEvent_events, processEvent_frameIDs, writeEventCount_app in IH.
  pose proof (emittedEvents_writes (frameIDs s) event) as Hevent.
  change (event :: raw) with ([event] ++ raw). rewrite rawWriteCount_app. lia.
Qed.

(** C7, as the code has it.  For a read or write effect whose location is
    [Indexed] with a base frame other than the topmost open frame, the top
    of the stack the raw events before it leave, the location resolves to
    [undefined] and the table is left as it is, the effect leaves the whole
    state as it is, and the trace is read, without anything thrown, into
    what it would be read into without that effect.  The canonical write
    events and the write effects that do not resolve are together the write
    effects of the raw trace.  So when the dropped effect is a write, the
    canonical write events are at least one fewer than the write effects,
    and exactly one fewer when every other write effect resolves; when it
    is a read, they are at most as many, and as many under the same
    proviso. *)
Theorem C7_unresolved_effect_dropped FL pre event post version effect Indexed :
  let s := processEvents FL initialState pre in
  let dropped := if isRawWrite event then 1%nat else 0%nat in
  isEffect event effect →
  effectLocation effect = Some (IndexedLocation Indexed) →
  Some (fst (Local (fst Indexed))) ≠ currentFrameID (openFrames pre) →
  frameIDs s = openFrames pre ∧
  processJSONLocation FL (IndexedLocation Indexed) (localLifetimeEnds s)
    (currentFrameID (frameIDs s))
  = (None, localLifetimeEnds s) ∧
  processEvent FL s event = s ∧
  readTrace FL (traceFile (pre ++ event :: post) version)
  = readTrace FL (traceFile (pre ++ post) version) ∧
  ∃ trace,
    readTrace FL (traceFile (pre ++ event :: post) version) = inr trace ∧
    (writeEventCount (trace_events trace) + dropped
     ≤ rawWriteCount (pre ++ event :: post))%nat ∧
    unresolvedWrites (pre ++ event :: post)
    = (dropped + unresolvedWrites (pre ++ post))%nat ∧
    (writeEventCount (trace_events trace) + unresolvedWrites (pre ++ event :: post))%nat
    = rawWriteCount (pre ++ event :: post) ∧
    (unresolvedWrites (pre ++ post) = 0%nat →
     (writeEventCount (trace_events trace) + dropped)%nat
     = rawWriteCount (pre ++ event :: post)).
Proof.
  intros s dropped Heffect Hlocation Hforeign.
  assert (frameIDs s = openFrames pre) as Hstack by apply processEvents_frameIDs.
  rewrite <- Hstack in Hforeign.
  assert (resolveLocation (IndexedLocation Indexed) (currentFrameID (frameIDs s)) = None)
    as Hresolve by (simpl; by case_decide).
  assert (processEvent FL s event = s) as Hstep.
  { rewrite (processEvent_effect FL s event effect Heffect).
    unfold processEffect. rewrite Hlocation.
    by rewrite (processJSONLocation_unresolved FL _ _ _ Hresolve). }
  split; [exact Hstack|].
  split; [by apply processJSONLocation_unresolved|].
  split; [exact Hstep|].
  assert (processEvents FL initialState (pre ++ event :: post)
          = processEvents FL initialState (pre ++ post)) as Hsame.
  { rewrite !processEvents_app, processEvents_cons. fold s. by rewrite Hstep. }
  unfold traceFile. rewrite !readTrace_parsed, Hsame.
  split; [done|]. eexists. split; [done|]. cbn [trace_events].
  assert (rawWriteCount (pre ++ event :: post)
          = (rawWriteCount (pre ++ post) + dropped)%nat) as Hraw.
  { change (event :: post) with ([event] ++ post).
    rewrite !rawWriteCount_app. unfold dropped, rawWriteCount at 2. simpl.
    destruct (isRawWrite event); simpl; lia. }
  assert (unresolvedWrites (pre ++ event :: post)
          = (dropped + unresolvedWrites (pre ++ post))%nat) as Hunresolved.
  { unfold unresolvedWrites. rewrite !unresolvedWritesFrom_app.
    cbn [unresolvedWritesFrom]. fold (openFrames pre). rewrite <- Hstack.
    assert (stackAfter (frameIDs s) event = frameIDs s) as ->.
    { by rewrite <- processEvent_frameIDs with (FRAME_LIFETIME := FL), Hstep. }
    assert ((if isUnresolvedWrite (frameIDs s) event then 1 else 0)%nat = dropped)
      as ->; [|lia].
    unfold dropped, isUnresolvedWrite, isRawWrite, rawWriteOf.
    destruct Heffect as (-> & -> & -> & ->).
    unfold effectLocation in Hlocation.
    destruct (Write effect) as [w|]; [|done].
    injection Hlocation as ->. by rewrite Hresolve. }
  pose proof (processEvents_writes FL (pre ++ post) initialState) as Hcount.
  change (frameIDs initialState) with (@nil Z) in Hcount.
  fold (unresolvedWrites (pre ++ post)) in Hcount.
  unfold writeEventCount at 2 in Hcount. simpl in Hcount.
  split; [lia|]. split; [exact Hunresolved|]. split; [lia|]. lia.
Qed.

(** While frame 1 is on top, a write indexes into a local of frame 2; the
    other write of the trace indexes into a local of frame 1 and resolves:
    of the two write effects one canonical write is left. *)
Lemma C7_unresolved_effect_dropped_witness :
  let pre := [ rawOpenFrame 1 "f" [] [Some (rawValue (JNumber 7))];
               rawWrite (indexedLocation 1 0 3) (JNumber 8) ] in
  let event := rawWrite (indexedLocation 2 0 3) (JNumber 9) in
  let post := [ rawInstruction 4; rawCloseFrame 1 ] in
  openFrames pre = [1] ∧
  unresolvedWrites (pre ++ post) = 0%nat ∧
  rawWriteCount (pre ++ event :: post) = 2%nat ∧
  processEvent (-1) (processEvents (-1) initialState pre) event
  = processEvents (-1) initialState pre ∧
  ∃ trace,
    readTrace (-1) (traceFile (pre ++ event :: post) (Some 1)) = inr trace ∧
    (writeEventCount (trace_events trace) + 1)%nat = 2%nat.
Proof.
  intros pre event post.
  split; [reflexivity|]. split; [reflexivity|]. split; [reflexivity|].
  destruct (C7_unresolved_effect_dropped (-1) pre event post (Some 1)
              {| Push := None; Pop := None;
                 Write := Some {| write_location := indexedLocation 2 0 3;
                                  root_value_after_write := rawValue (JNumber 9) |};
                 Read := None |}
              ({| Local := (2, 0%nat) |}, 3))
    as (_ & _ & Hstep & _ & trace & Hread & _ & _ & _ & Hcount).
  - unfold isEffect. simpl. done.
  - reflexivity.
  - vm_compute. congruence.
  - split; [exact Hstep|]. exists trace. split; [exact Hread|].
    apply Hcount. reflexivity.
Defined.

(** C7, as the specification states it, fails: when the dropped effect is a read, the
    canonical write events are as many as the write effects, not one
    fewer. *)
Lemma C7_counterexample :
  let raw := [ rawOpenFrame 1 "f" [] [Some (rawValue (JNumber 7))];
               rawWrite (localLocation 1 0) (JNumber 8);
               rawRead (indexedLocation 2 0 3) (JNumber 9);
               rawCloseFrame 1 ] in
  ∃ trace,
    readTrace (-1) (traceFile raw (Some 1)) = inr trace ∧
    rawWriteCount raw = 1%nat ∧
    writeEventCount (trace_events trace) = 1%nat ∧
    (writeEventCount (trace_events trace) + 1)%nat ≠ rawWriteCount raw.
Proof.
  intros raw. eexists. split; [reflexivity|].
  split; [by vm_compute|]. split; [by vm_compute|]. by vm_compute.
Qed.

(** ** Accesses mark a slot alive (C8) *)



(** ** The value decoder (C9) *)

(** Induction on a raw value with the hypothesis on every element of an
    array and on every field of a compound. *)
Lemma value_nested_ind (P : JSONTraceValueType → Prop) :
  (∀ b, P (JBoolean b)) →
  (∀ n, P (JNumber n)) →
  (∀ s, P (JString s)) →
  (∀ items, Forall P items → P (JArray items)) →
  (∀ fields type variant_name variant_tag,
     Forall (λ entry, P (snd entry)) fields →
     P (JCompound fields type variant_name variant_tag)) →
  ∀ value, P value.
Proof.
  intros Pboolean Pnumber Pstring Parray Pcompound.
  fix IH 1. intros [b|n|s|items|fields type variant_name variant_tag].
  - apply Pboolean.
  - apply Pnumber.
  - apply Pstring.
  - apply Parray. induction items as [|item rest IHrest]; constructor.
    + apply IH.
    + apply IHrest.
  - apply Pcompound. induction fields as [|[key value] rest IHrest]; constructor.
    + apply IH.
    + apply IHrest.
Qed.

(** *** The keys of [firstOccurrences] *)

Lemma firstOccurrences_elem_of key keys :
  key ∈ firstOccurrences keys ↔ key ∈ keys.
Proof.
  induction keys as [|key' rest IH]; simpl; [done|].
  rewrite !elem_of_cons, list_elem_of_filter, IH.
  destruct (decide (key = key')) as [->|Hne]; [split; [by left|by left]|].
  split; [intros [?|[_ ?]]; [done|by right]|intros [?|?]; [done|by right]].
Qed.

Lemma firstOccurrences_NoDup keys : NoDup (firstOccurrences keys).
Proof.
  induction keys as [|key rest IH]; simpl; constructor.
  - rewrite list_elem_of_filter. by intros [Hne _].
  - by apply NoDup_filter.
Qed.

Lemma filter_other_keys (key : string) (keys : list string) :
  key ∉ keys → filter (λ key', key' ≠ key) keys = keys.
Proof.
  induction keys as [|key' rest IH]; [done|].
  rewrite not_elem_of_cons. intros [Hne Hout].
  rewrite filter_cons_True by congruence. f_equal. by apply IH.
Qed.

Lemma firstOccurrences_id keys : NoDup keys → firstOccurrences keys = keys.
Proof.
  induction 1 as [|key rest Hkey _ IH]; simpl; [done|].
  rewrite IH. f_equal. by apply filter_other_keys.
Qed.

(** *** Array indices *)

Lemma digitValue_inv c d :
  digitValue c = Some d →
  (d < 10)%N ∧ Ascii.N_of_ascii c = (d + 48)%N ∧ c = Ascii.ascii_of_N (d + 48).
Proof.
  unfold digitValue. destruct (_ && _) eqn:Hrange; [|done]. intros [= <-].
  apply andb_true_iff in Hrange as [Hlow Hhigh].
  apply N.leb_le in Hlow, Hhigh.
  replace (Ascii.N_of_ascii c - 48 + 48)%N with (Ascii.N_of_ascii c) by lia.
  split; [lia|]. split; [done|]. by rewrite Ascii.ascii_N_embedding.
Qed.

Lemma digitsValue_bounds s acc n :
  digitsValue s acc = Some n →
  (acc * 10 ^ N.of_nat (String.length s) ≤ n
   < (acc + 1) * 10 ^ N.of_nat (String.length s))%N.
Proof.
  revert acc. induction s as [|c s IH]; intros acc; cbn [digitsValue String.length].
  - intros [= ->]. rewrite N.pow_0_r. lia.
  - destruct (digitValue c) as [d|] eqn:Hd; [|done]. intros Hn.
    apply digitValue_inv in Hd as [Hd _]. apply IH in Hn.
    rewrite Nat2N.inj_succ, N.pow_succ_r'.
    set (P := (10 ^ N.of_nat (String.length s))%N) in *. nia.
Qed.

Lemma digitsValue_inj s1 s2 acc n :
  String.length s1 = String.length s2 →
  digitsValue s1 acc = Some n → digitsValue s2 acc = Some n → s1 = s2.
Proof.
  revert s2 acc. induction s1 as [|c1 s1 IH]; intros [|c2 s2] acc Hlength;
    try done.
  cbn [digitsValue].
  destruct (digitValue c1) as [d1|] eqn:Hd1; [|done].
  destruct (digitValue c2) as [d2|] eqn:Hd2; [|done].
  intros Hn1 Hn2. injection Hlength as Hlength.
  pose proof (digitsValue_bounds _ _ _ Hn1) as Hbounds1.
  pose proof (digitsValue_bounds _ _ _ Hn2) as Hbounds2.
  rewrite <- Hlength in Hbounds2.
  apply digitValue_inv in Hd1 as (_ & _ & ->), Hd2 as (_ & _ & ->).
  set (P := (10 ^ N.of_nat (String.length s1))%N) in *.
  assert (d1 = d2) as -> by nia.
  f_equal. by apply (IH s2 (10 * acc + d2)%N).
Qed.

(** An array index is written in one way. *)
Lemma arrayIndex_inj key1 key2 i :
  arrayIndex key1 = Some i → arrayIndex key2 = Some i → key1 = key2.
Proof.
  assert (Hcanonical : ∀ key,
    arrayIndex key = Some i →
    digitsValue key 0 = Some i ∧
    ∃ digits : nat, String.length key = S digits ∧
      ((10 ^ N.of_nat digits ≤ i)%N ∨ (digits = 0%nat ∧ i = 0%N))).
  { intros [|c rest]; [done|]. unfold arrayIndex.
    destruct (_ && _) eqn:Hzero; [done|].
    destruct (digitsValue (String c rest) 0) as [n|] eqn:Hn; [|done].
    destruct (n <=? 4294967294)%N; [|done]. intros [= ->].
    split; [done|]. exists (String.length rest). split; [done|].
    cbn [digitsValue] in Hn.
    destruct (digitValue c) as [d|] eqn:Hd; [|done].
    apply digitValue_inv in Hd as (_ & Hcode & _).
    pose proof (digitsValue_bounds _ _ _ Hn) as Hbounds.
    apply andb_false_iff in Hzero as [Hzero|Hzero].
    - apply N.eqb_neq in Hzero. left.
      set (P := (10 ^ N.of_nat (String.length rest))%N) in *. nia.
    - apply negb_false_iff, bool_decide_eq_true in Hzero. subst rest.
      cbn [digitsValue] in Hn. injection Hn as <-.
      destruct (decide (d = 0%N)) as [->|Hd]; [by right|].
      left. simpl. lia. }
  intros Hkey1 Hkey2.
  destruct (Hcanonical _ Hkey1) as (Hvalue1 & digits1 & Hlength1 & Hlow1).
  destruct (Hcanonical _ Hkey2) as (Hvalue2 & digits2 & Hlength2 & Hlow2).
  apply (digitsValue_inj _ _ 0%N i); [|done|done].
  rewrite Hlength1, Hlength2. f_equal.
  pose proof (digitsValue_bounds _ _ _ Hvalue1) as Hhigh1.
  pose proof (digitsValue_bounds _ _ _ Hvalue2) as Hhigh2.
  rewrite Hlength1 in Hhigh1. rewrite Hlength2 in Hhigh2.
  rewrite Nat2N.inj_succ in Hhigh1, Hhigh2.
  destruct (decide (digits1 = digits2)) as [|Hne]; [done|exfalso].
  assert (∀ small large : nat,
    (small < large)%nat → (10 ^ N.succ (N.of_nat small) ≤ 10 ^ N.of_nat large)%N)
    as Hpow.
  { intros small large Hlt. apply N.pow_le_mono_r; lia. }
  destruct (decide (digits1 < digits2)%nat) as [Hlt|Hge].
  - pose proof (Hpow _ _ Hlt). destruct Hlow2 as [?|[-> ?]]; lia.
  - assert (digits2 < digits1)%nat as Hlt by lia.
    pose proof (Hpow _ _ Hlt). destruct Hlow1 as [?|[-> ?]]; lia.
Qed.

(** *** The properties [JSON.parse] creates *)

Section object_entries_facts.
Context {V : Type}.
Implicit Types (properties members : list (string * V)).

Lemma setProperty_keys properties key v :
  map fst (setProperty properties key v)
  = if decide (key ∈ map fst properties) then map fst properties
    else map fst properties ++ [key].
Proof.
  induction properties as [|[key' v'] rest IH]; cbn [setProperty map fst].
  - rewrite decide_False; [done|]. apply not_elem_of_nil.
  - destruct (decide (key' = key)) as [->|Hne]; cbn [map fst].
    + rewrite decide_True; [done|]. apply elem_of_cons. by left.
    + rewrite IH. destruct (decide (key ∈ map fst rest)) as [Hin|Hout].
      * rewrite decide_True; [done|]. apply elem_of_cons. by right.
      * rewrite decide_False; [done|]. rewrite elem_of_cons. by intros [->|?].
Qed.

Lemma setProperty_new properties key v :
  key ∉ map fst properties → setProperty properties key v = properties ++ [(key, v)].
Proof.
  induction properties as [|[key' v'] rest IH]; simpl; [done|].
  rewrite not_elem_of_cons. intros [Hne Hout].
  rewrite decide_False by done. by rewrite IH.
Qed.

Lemma setProperty_elem_of properties key v key' v' :
  NoDup (map fst properties) →
  (key', v') ∈ setProperty properties key v ↔
  (key' = key ∧ v' = v) ∨ (key' ≠ key ∧ (key', v') ∈ properties).
Proof.
  induction properties as [|[key0 v0] rest IH]; simpl; intros Hkeys.
  - rewrite list_elem_of_singleton, elem_of_nil. split.
    + intros [= -> ->]. by left.
    + intros [[-> ->]|[_ []]]. done.
  - apply NoDup_cons in Hkeys as [Hout Hkeys].
    destruct (decide (key0 = key)) as [->|Hne].
    + rewrite !elem_of_cons. split.
      * intros [[= -> ->]|Hin]; [by left|]. right. split; [|by right].
        intros ->. apply Hout.
        apply (list_elem_of_fmap_2 fst) in Hin. exact Hin.
      * intros [[-> ->]|[Hne' [[= ? ?]|Hin]]]; [by left|done|by right].
    + rewrite !elem_of_cons, (IH Hkeys). split.
      * intros [[= -> ->]|[?|[? ?]]]; [right|by left|right]; split; auto.
      * intros [?|[? [?|?]]]; [right; by left|by left|right; by right].
Qed.

Lemma createProperties_snoc members key v :
  createProperties (members ++ [(key, v)])
  = setProperty (createProperties members) key v.
Proof. unfold createProperties. by rewrite foldl_app. Qed.

(** The keys are created in the order of their first declaration. *)
Lemma createProperties_keys members :
  map fst (createProperties members) = firstOccurrences (map fst members).
Proof.
  unfold createProperties.
  enough (∀ properties,
    map fst (foldl (λ properties member,
                      setProperty properties (fst member) (snd member))
                   properties members)
    = map fst properties
      ++ filter (λ key, key ∉ map fst properties)
                (firstOccurrences (map fst members))) as Hgeneral.
  { rewrite (Hgeneral []). simpl. clear Hgeneral.
    induction (firstOccurrences (map fst members)) as [|key rest IH]; [done|].
    rewrite filter_cons_True by apply not_elem_of_nil. by f_equal. }
  induction members as [|[key v] rest IH]; intros properties; simpl.
  { by rewrite app_nil_r. }
  rewrite IH, setProperty_keys.
  destruct (decide (key ∈ map fst properties)) as [Hin|Hout].
  - rewrite filter_cons_False by (by intros Hout; apply Hout).
    rewrite list_filter_filter.
    f_equal. apply list_filter_iff. intros key'. split; [|by intros [? _]].
    intros Hout'. split; [done|]. by intros ->.
  - rewrite filter_cons_True by done. rewrite list_filter_filter, <- app_assoc.
    simpl. do 2 f_equal. apply list_filter_iff. intros key'.
    rewrite elem_of_app, list_elem_of_singleton. split.
    + intros Hnew. split; intros ?; apply Hnew; [by left|by right].
    + intros [Hout' Hne] [?|?]; done.
Qed.

Lemma createProperties_NoDup members : NoDup (map fst (createProperties members)).
Proof. rewrite createProperties_keys. apply firstOccurrences_NoDup. Qed.

(** A key holds the value of its last declaration. *)
Lemma createProperties_elem_of members key v :
  (key, v) ∈ createProperties members ↔
  last (filter (λ entry, fst entry = key) members) = Some (key, v).
Proof.
  revert v. induction members as [|[key' v'] members IH] using rev_ind; intros v.
  { simpl. by rewrite elem_of_nil. }
  rewrite createProperties_snoc, filter_app, last_app.
  rewrite setProperty_elem_of by apply createProperties_NoDup.
  rewrite IH. destruct (decide (key' = key)) as [->|Hne].
  - rewrite filter_cons_True by done. simpl. split.
    + by intros [[_ ->]|[? _]].
    + intros [= ->]. by left.
  - rewrite filter_cons_False by done. simpl. split.
    + by intros [[-> _]|[_ ?]].
    + intros Hlast. right. split; [congruence|done].
Qed.

Lemma createProperties_id members :
  NoDup (map fst members) → createProperties members = members.
Proof.
  induction members as [|[key v] members IH] using rev_ind; intros Hkeys; [done|].
  rewrite map_app in Hkeys. apply NoDup_app in Hkeys as (Hkeys & Hout & _).
  rewrite createProperties_snoc, (IH Hkeys).
  apply setProperty_new. intros Hin. apply (Hout key Hin). simpl. by left.
Qed.

(** *** The order of [Object.entries] *)

Lemma insertIndexed_Permutation i entry (sorted : list (N * (string * V))) :
  insertIndexed i entry sorted ≡ₚ (i, entry) :: sorted.
Proof.
  induction sorted as [|[j e] rest IH]; simpl; [done|].
  destruct (i <? j)%N; [done|]. rewrite IH. apply Permutation_swap.
Qed.

Lemma indexEntries_indices properties :
  Forall (λ indexed, arrayIndex (fst (snd indexed)) = Some (fst indexed))
         (indexEntries properties).
Proof.
  induction properties as [|entry rest IH]; simpl; [constructor|].
  destruct (arrayIndex (fst entry)) as [i|] eqn:Hi; [|done].
  rewrite insertIndexed_Permutation. by constructor.
Qed.

Lemma indexEntries_Permutation properties :
  map snd (indexEntries properties) ++ namedEntries properties ≡ₚ properties.
Proof.
  induction properties as [|entry rest IH]; simpl; [done|].
  destruct (arrayIndex (fst entry)) as [i|].
  - change (map snd (insertIndexed i entry (indexEntries rest)))
      with (snd <$> insertIndexed i entry (indexEntries rest)).
    rewrite insertIndexed_Permutation. simpl. by f_equiv.
  - rewrite <- Permutation_middle. by f_equiv.
Qed.

Lemma indexEntries_elem_of properties i entry :
  (i, entry) ∈ indexEntries properties →
  entry ∈ properties ∧ arrayIndex (fst entry) = Some i.
Proof.
  intros Hin. split.
  - rewrite <- (indexEntries_Permutation properties), elem_of_app. left.
    by apply (list_elem_of_fmap_2 snd) in Hin.
  - pose proof (indexEntries_indices properties) as Hindices.
    rewrite Forall_forall in Hindices. exact (Hindices _ Hin).
Qed.

Lemma insertIndexed_sorted i entry (sorted : list (N * (string * V))) :
  i ∉ map fst sorted →
  StronglySorted N.lt (map fst sorted) →
  StronglySorted N.lt (map fst (insertIndexed i entry sorted)).
Proof.
  induction sorted as [|[j e] rest IH]; simpl; intros Hout Hsorted.
  { repeat constructor. }
  apply not_elem_of_cons in Hout as [Hne Hout].
  apply StronglySorted_inv in Hsorted as [Hrest Hj].
  destruct (i <? j)%N eqn:Hij; simpl.
  - apply N.ltb_lt in Hij. constructor; [by constructor|].
    constructor; [lia|]. eapply Forall_impl; [exact Hj|]. simpl. lia.
  - apply N.ltb_ge in Hij. constructor; [by apply IH|].
    change (map fst (insertIndexed i entry rest))
      with (fst <$> insertIndexed i entry rest).
    rewrite insertIndexed_Permutation. simpl. constructor; [lia|done].
Qed.

(** The array indices come in strictly ascending order. *)
Lemma indexEntries_sorted properties :
  NoDup (map fst properties) →
  StronglySorted N.lt (map fst (indexEntries properties)).
Proof.
  induction properties as [|entry rest IH]; simpl; intros Hkeys; [constructor|].
  apply NoDup_cons in Hkeys as [Hout Hkeys].
  destruct (arrayIndex (fst entry)) as [i|] eqn:Hi; [|by apply IH].
  apply insertIndexed_sorted; [|by apply IH].
  intros Hin. apply Hout.
  apply (list_elem_of_fmap_1 fst) in Hin as ([j entry'] & -> & Hin).
  apply indexEntries_elem_of in Hin as [Hin Hj]. simpl in Hj.
  rewrite (arrayIndex_inj _ _ _ Hi Hj).
  by apply (list_elem_of_fmap_2 fst) in Hin.
Qed.

Lemma namedEntries_filter properties :
  namedEntries properties = filter (λ entry, arrayIndex (fst entry) = None) properties.
Proof.
  induction properties as [|entry rest IH]; simpl; [done|].
  destruct (arrayIndex (fst entry)) eqn:Hi.
  - rewrite filter_cons_False by congruence. done.
  - rewrite filter_cons_True by done. by f_equal.
Qed.

Lemma namedEntries_keys properties :
  map fst (namedEntries properties)
  = filter (λ key, arrayIndex key = None) (map fst properties).
Proof.
  induction properties as [|entry rest IH]; simpl; [done|].
  destruct (arrayIndex (fst entry)) eqn:Hi.
  - rewrite filter_cons_False by congruence. done.
  - rewrite filter_cons_True by done. simpl. by f_equal.
Qed.

Lemma Object_entries_Permutation members :
  Object_entries members ≡ₚ createProperties members.
Proof. apply indexEntries_Permutation. Qed.

Lemma Object_entries_id members :
  NoDup (map fst members) →
  Forall (λ entry, arrayIndex (fst entry) = None) members →
  Object_entries members = members.
Proof.
  intros Hkeys Hnamed. unfold Object_entries. rewrite createProperties_id by done.
  clear Hkeys.
  assert (indexEntries members = [] ∧ namedEntries members = members) as [-> ->];
    [|done].
  induction Hnamed as [|entry rest Hentry _ [IHindex IHnamed]]; simpl; [done|].
  rewrite Hentry. split; [done|]. by f_equal.
Qed.
End object_entries_facts.

(** [Object.entries] looks at the keys only. *)
Lemma Object_entries_map {V W : Type} (f : V → W) (members : list (string * V)) :
  Object_entries (map (λ entry, (fst entry, f (snd entry))) members)
  = map (λ entry, (fst entry, f (snd entry))) (Object_entries members).
Proof.
  set (g := λ entry : string * V, (fst entry, f (snd entry))).
  assert (Hset : ∀ properties key v,
    setProperty (map g properties) key (f v) = map g (setProperty properties key v)).
  { induction properties as [|[key' v'] rest IH]; intros key v; simpl; [done|].
    destruct (decide (key' = key)); simpl; [done|]. by rewrite IH. }
  assert (Hcreate : createProperties (map g members) = map g (createProperties members)).
  { induction members as [|[key v] members IH] using rev_ind; [done|].
    rewrite map_app. simpl. unfold g at 2. simpl.
    by rewrite !createProperties_snoc, IH, Hset. }
  assert (Hinsert : ∀ i entry sorted,
    insertIndexed i (g entry) (map (λ indexed, (fst indexed, g (snd indexed))) sorted)
    = map (λ indexed, (fst indexed, g (snd indexed))) (insertIndexed i entry sorted)).
  { induction sorted as [|[j e] rest IH]; simpl; [done|].
    destruct (i <? j)%N; simpl; [done|]. by rewrite IH. }
  assert (Hindex : ∀ properties,
    indexEntries (map g properties)
    = map (λ indexed, (fst indexed, g (snd indexed))) (indexEntries properties)).
  { induction properties as [|entry rest IH]; simpl; [done|].
    destruct (arrayIndex (fst entry)); [|done]. by rewrite IH, Hinsert. }
  assert (Hnamed : ∀ properties,
    namedEntries (map g properties) = map g (namedEntries properties)).
  { induction properties as [|entry rest IH]; simpl; [done|].
    destruct (arrayIndex (fst entry)); simpl; by rewrite IH. }
  unfold Object_entries. rewrite Hcreate, Hindex, Hnamed, map_app, !map_map. done.
Qed.

(** The compound case in the order of the source: [Object.entries] first,
    then the decoding of each entry. *)
Lemma traceValueFromJSON_compound fields type variant_name variant_tag :
  traceValueFromJSON (JCompound fields type variant_name variant_tag)
  = RCompound (map decodeField (Object_entries fields)) type variant_name variant_tag.
Proof.
  cbn [traceValueFromJSON]. f_equal.
  etrans; [|etrans; [apply (Object_entries_map traceValueFromJSON fields)|]].
  - f_equal. apply map_ext. by intros [key value].
  - apply map_ext. by intros [key value].
Qed.

(** *** The decoder and its specification *)

(** The text of some numbers: integers a double holds, integers it does
    not hold, fractions, and the two notations. *)
Lemma String_number_examples :
  String_number 0 = "0" ∧
  String_number (-7) = "-7" ∧
  String_number (2 ^ 53) = "9007199254740992" ∧
  String_number (2 ^ 53 + 1) = "9007199254740992" ∧
  String_number (2 ^ 64 - 1) = "18446744073709552000" ∧
  String_number (2 ^ 128 - 1) = "3.402823669209385e+38" ∧
  String_number (10 ^ 21) = "1e+21" ∧
  String_number {| significand := 15; exponent10 := -1 |} = "1.5" ∧
  String_number {| significand := 1; exponent10 := -7 |} = "1e-7" ∧
  String_number {| significand := 1; exponent10 := 400 |} = "Infinity".
Proof. by vm_compute. Qed.

(** The specification allows one result at most. *)
Lemma decodes_deterministic value result1 result2 :
  decodes value result1 → decodes value result2 → result1 = result2.
Proof.
  revert result1 result2.
  induction value as [b|n|s|items IH|fields type variant_name variant_tag IH]
    using value_nested_ind; intros result1 result2 Hfirst Hsecond;
    inversion Hfirst as [| | |? decoded1 Hall1|? decoded1 ? ? ? Hall1];
    inversion Hsecond as [| | |? decoded2 Hall2|? decoded2 ? ? ? Hall2];
    subst; try done.
  - f_equal. clear Hfirst Hsecond. revert decoded2 Hall2.
    induction Hall1 as [|item r1 rest decoded1 Hitem _ IHrest];
      intros decoded2 Hall2; inversion Hall2 as [|? r2 ? rest2 Hitem2 Hrest2];
      subst; [done|].
    apply Forall_cons in IH as [Hhead Htail].
    f_equal; [by apply Hhead|by apply IHrest].
  - f_equal. clear Hfirst Hsecond. revert decoded2 Hall2.
    induction Hall1 as [|[key value] [key1 r1] rest decoded1 [Hkey1 Hvalue1] _ IHrest];
      intros decoded2 Hall2;
      inversion Hall2 as [|? [key2 r2] ? rest2 [Hkey2 Hvalue2] Hrest2];
      subst; [done|].
    apply Forall_cons in IH as [Hhead Htail]. simpl in *. subst key1 key2.
    f_equal; [f_equal; by apply Hhead|by apply IHrest].
Qed.

Lemma plainKeys_spec keys :
  plainKeys keys = true →
  NoDup keys ∧ Forall (λ key, arrayIndex key = None) keys.
Proof.
  unfold plainKeys. rewrite andb_true_iff, bool_decide_eq_true.
  intros [Hkeys Hnamed]. split; [done|].
  apply Forall_forall. intros key Hkey.
  rewrite forallb_forall in Hnamed.
  eapply bool_decide_eq_true_1, Hnamed. by apply list_elem_of_In.
Qed.

(** With plain keys at every depth the fields come as they are declared. *)
Lemma plainFields_decodes value :
  plainFields value = true → decodes value (traceValueFromJSON value).
Proof.
  induction value as [b|n|s|items IH|fields type variant_name variant_tag IH]
    using value_nested_ind; intros Hplain; try by constructor.
  - simpl. constructor. simpl in Hplain.
    induction IH as [|item rest Hitem _ IHrest]; simpl; [constructor|].
    simpl in Hplain. apply andb_true_iff in Hplain as [Hhead Htail].
    constructor; [by apply Hitem|by apply IHrest].
  - rewrite traceValueFromJSON_compound.
    cbn [plainFields] in Hplain. apply andb_true_iff in Hplain as [Hkeys Hfields].
    apply plainKeys_spec in Hkeys as [Hkeys Hnamed].
    rewrite Object_entries_id; [|done|].
    2:{ change (map fst fields) with (fst <$> fields) in Hnamed.
        by apply Forall_fmap in Hnamed. }
    constructor. clear Hkeys Hnamed.
    induction IH as [|[key value] rest Hentry _ IHrest]; simpl; [constructor|].
    simpl in Hfields. apply andb_true_iff in Hfields as [Hhead Htail].
    constructor; [|by apply IHrest]. split; [done|]. by apply Hentry.
Qed.

(** C9.  [traceValueFromJSON] is a function on all raw values.  A boolean
    decodes to ["true"] or ["false"], a string to itself and a number to
    the text [String] gives for it, the shortest decimal of the nearest
    double: 42 gives ["42"], but 2^64 gives ["18446744073709552000"] and
    2^128 gives ["3.402823669209385e+38"].  An array decodes element by
    element.  Any other object decodes to a compound value with [type],
    [variant_name] and [variant_tag] copied, whose fields are the decoded
    entries of [Object.entries]: first the fields whose name is an array
    index, by strictly ascending index, then the other names in the order
    of their first declaration; every name comes once, with the decoding of
    the value of its last declaration.  For a value none of whose compounds
    repeats a name or has an array index for a name, the result is the one
    value the specification of the decoder allows, with the fields in the
    declared order. *)
Theorem C9_value_decoder :
  traceValueFromJSON (JBoolean true) = RString "true" ∧
  traceValueFromJSON (JBoolean false) = RString "false" ∧
  (∀ s, traceValueFromJSON (JString s) = RString s) ∧
  (∀ n, traceValueFromJSON (JNumber n) = RString (String_number n)) ∧
  String_number 42 = "42" ∧
  String_number (2 ^ 64) = "18446744073709552000" ∧
  String_number (2 ^ 128) = "3.402823669209385e+38" ∧
  (∀ items,
     traceValueFromJSON (JArray items) = RArray (map traceValueFromJSON items)) ∧
  (∀ fields type variant_name variant_tag,
     ∃ indexed named,
       traceValueFromJSON (JCompound fields type variant_name variant_tag)
       = RCompound (indexed ++ named) type variant_name variant_tag ∧
       indexed ++ named = map decodeField (Object_entries fields) ∧
       (∃ indices,
          Forall2 (λ entry i, arrayIndex (fst entry) = Some i) indexed indices ∧
          StronglySorted N.lt indices) ∧
       map fst named
       = filter (λ key, arrayIndex key = None) (firstOccurrences (map fst fields)) ∧
       NoDup (map fst (indexed ++ named)) ∧
       ∀ key result,
         (key, result) ∈ indexed ++ named ↔
         ∃ raw,
           last (filter (λ entry, fst entry = key) fields) = Some (key, raw) ∧
           result = traceValueFromJSON raw) ∧
  (∀ value,
     plainFields value = true →
     decodes value (traceValueFromJSON value) ∧
     ∀ result, decodes value result → result = traceValueFromJSON value).
Proof.
  split; [done|]. split; [done|]. split; [done|]. split; [done|].
  split; [by vm_compute|]. split; [by vm_compute|]. split; [by vm_compute|].
  split; [done|]. split.
  - intros fields type variant_name variant_tag.
    set (properties := createProperties fields).
    exists (map decodeField (map snd (indexEntries properties))),
           (map decodeField (namedEntries properties)).
    assert (Hentries :
      map decodeField (map snd (indexEntries properties))
      ++ map decodeField (namedEntries properties)
      = map decodeField (Object_entries fields)).
    { unfold Object_entries. by rewrite map_app. }
    assert (Hkeys : ∀ entries : list (string * JSONTraceValueType),
      map fst (map decodeField entries) = map fst entries).
    { intros entries. rewrite map_map. apply map_ext. by intros [key value]. }
    split; [by rewrite traceValueFromJSON_compound, Hentries|].
    split; [exact Hentries|]. split; [|split; [|split]].
    + exists (map fst (indexEntries properties)). split.
      * generalize (indexEntries_indices properties).
        generalize (indexEntries properties).
        induction 1 as [|[i [key value]] rest Hi _ IH]; simpl; by constructor.
      * apply indexEntries_sorted, createProperties_NoDup.
    + rewrite Hkeys, namedEntries_keys. unfold properties.
      by rewrite createProperties_keys.
    + rewrite Hentries, Hkeys.
      change (map fst (Object_entries fields)) with (fst <$> Object_entries fields).
      rewrite Object_entries_Permutation. apply createProperties_NoDup.
    + intros key result. rewrite Hentries.
      change (map decodeField (Object_entries fields))
        with (decodeField <$> Object_entries fields).
      rewrite list_elem_of_fmap. split.
      * intros ([key' raw] & [= -> ->] & Hin). exists raw. split; [|done].
        apply createProperties_elem_of. by rewrite <- Object_entries_Permutation.
      * intros (raw & Hlast & ->). exists (key, raw). split; [done|].
        rewrite Object_entries_Permutation. by apply createProperties_elem_of.
  - intros value Hplain.
    pose proof (plainFields_decodes value Hplain) as Hdecodes.
    split; [exact Hdecodes|].
    intros result Hresult. exact (decodes_deterministic _ _ _ Hresult Hdecodes).
Qed.

(** A struct with two fields, the second an array. *)
Lemma C9_value_decoder_witness :
  let value :=
    JCompound [("a", JNumber 42); ("b", JArray [JBoolean true; JString "x"])]
              "0x1::m::S" None None in
  plainFields value = true ∧
  ∀ result,
    decodes value result →
    result = RCompound [("a", RString "42");
                        ("b", RArray [RString "true"; RString "x"])]
                       "0x1::m::S" None None.
Proof.
  intros value. split; [reflexivity|].
  intros result Hresult.
  destruct C9_value_decoder as (_ & _ & _ & _ & _ & _ & _ & _ & _ & Hspec).
  exact (proj2 (Hspec value eq_refl) result Hresult).
Defined.

(** A struct whose fields are declared in the order [b], [1], [a], [0]:
    the decoded fields come in the order [0], [1], [b], [a], which is not
    the declared one. *)
Lemma C9_counterexample :
  let value :=
    JCompound [("b", JNumber 1); ("1", JNumber 2); ("a", JNumber 3); ("0", JNumber 4)]
              "0x1::m::S" None None in
  traceValueFromJSON value
  = RCompound [("0", RString "4"); ("1", RString "2");
               ("b", RString "1"); ("a", RString "3")]
              "0x1::m::S" None None ∧
  ¬ decodes value (traceValueFromJSON value).
Proof.
  intros value.
  assert (Hresult : traceValueFromJSON value
    = RCompound [("0", RString "4"); ("1", RString "2");
                 ("b", RString "1"); ("a", RString "3")]
                "0x1::m::S" None None) by (by vm_compute).
  split; [exact Hresult|].
  rewrite Hresult. intros Hdecodes.
  inversion Hdecodes as [| | | |? ? ? ? ? Hall]; subst.
  inversion Hall as [|? ? ? ? [Hkey _] _]; subst. simpl in Hkey. discriminate.
Qed.

(** ** Where a canonical write comes from (C10) *)

(** Every canonical event is pushed by one raw event, in the state reached
    by the raw events before it. *)
Lemma processEvents_event_origin FL (raw : list JSONTraceEvent) (n : nat) canonical :
  st_events (processEvents FL initialState raw) !! n = Some canonical →
  ∃ pre event post,
    raw = pre ++ event :: post ∧
    let s := processEvents FL initialState pre in
    (length (st_events s) ≤ n)%nat ∧
    emittedEvents (frameIDs s) event !! (n - length (st_events s))%nat = Some canonical.
Proof.
  induction raw as [|event raw IH] using rev_ind; intros Hn.
  { simpl in Hn. by destruct n. }
  rewrite processEvents_snoc, processEvent_events in Hn.
  apply lookup_app_Some in Hn as [Hold | [Hle Hnew]].
  - destruct (IH Hold) as (pre & event' & post & -> & Hle & Hemitted).
    exists pre, event', (post ++ [event]).
    split; [by rewrite <- app_assoc|]. by split.
  - exists raw, event, []. by split.
Qed.

(** The only raw event that pushes a canonical write is a write effect
    whose location resolves, and the write carries the top of the stack. *)
Lemma emittedEvents_write_inv stack event (k : nat) frameId localIndex decoded :
  emittedEvents stack event !! k
  = Some (EffectEvent (WriteEffect (LocalTraceLocation frameId localIndex) decoded)) →
  ∃ effect w,
    isEffect event effect ∧ Write effect = Some w ∧ k = 0%nat ∧
    frameId = currentFrameID stack ∧
    resolveLocation (write_location w) (currentFrameID stack) = Some localIndex ∧
    decoded = RuntimeTraceValue
                (traceValueFromJSON (value (RuntimeValue (root_value_after_write w)))).
Proof.
  unfold emittedEvents, isEffect.
  destruct (OpenFrame event) as [open|].
  { destruct k; simpl; [by intros [=]|by rewrite lookup_nil]. }
  destruct (CloseFrame event) as [close|].
  { destruct k; simpl; [by intros [=]|by rewrite lookup_nil]. }
  destruct (Instruction event) as [instr|].
  { destruct k; simpl; [by intros [=]|by rewrite lookup_nil]. }
  destruct (Effect event) as [effect|]; [|by rewrite lookup_nil].
  destruct (Write effect) as [w|] eqn:Hwrite; [|by rewrite lookup_nil].
  destruct (resolveLocation _ _) as [index|] eqn:Hresolve; [|by rewrite lookup_nil].
  destruct k; simpl; [|by rewrite lookup_nil].
  intros [= <- <- <-]. exists effect, w. by repeat split.
Qed.

(** C10.  A canonical write event returned by [readTrace] is pushed by a
    raw write effect whose location resolves; its [frameId] is the top of
    the stack of open frames at the time the effect is processed, that is
    the last frame that the raw events before the effect have opened and
    not popped, whatever frame the raw location names; and the row the
    effect marks alive is the row of the frame id the raw location names. *)
Theorem C10_write_event_frame FL raw version trace (n : nat) frameId localIndex decoded :
  readTrace FL (traceFile raw version) = inr trace →
  trace_events trace !! n
  = Some (EffectEvent (WriteEffect (LocalTraceLocation frameId localIndex) decoded)) →
  ∃ pre event post effect w,
    raw = pre ++ event :: post ∧
    isEffect event effect ∧ Write effect = Some w ∧
    let s := processEvents FL initialState pre in
    let s' := processEvent FL s event in
    let named := locationFrame (write_location w) in
    length (st_events s) = n ∧
    st_events s'
    = st_events s
      ++ [EffectEvent (WriteEffect (LocalTraceLocation frameId localIndex) decoded)] ∧
    frameIDs s = openFrames pre ∧
    frameId = last (openFrames pre) ∧
    frameId = currentFrameID (frameIDs s) ∧
    fst (processJSONLocation FL (write_location w) (localLifetimeEnds s)
           (currentFrameID (frameIDs s))) = Some localIndex ∧
    decoded = RuntimeTraceValue
                (traceValueFromJSON (value (RuntimeValue (root_value_after_write w)))) ∧
    localLifetimeEnds s'
    = <[Some named := array_set (get_or_empty (localLifetimeEnds s) (Some named))
                                localIndex FL]> (localLifetimeEnds s) ∧
    array_get (get_or_empty (localLifetimeEnds s') (Some named)) localIndex = Some FL.
Proof.
  unfold traceFile. rewrite readTrace_parsed. intros [= <-]. cbn [trace_events].
  intros Hn.
  destruct (processEvents_event_origin FL raw n _ Hn)
    as (pre & event & post & -> & Hle & Hemitted).
  cbv zeta in Hle, Hemitted.
  destruct (emittedEvents_write_inv _ _ _ _ _ _ Hemitted)
    as (effect & w & Heffect & Hwrite & Hk & -> & Hresolve & ->).
  exists pre, event, post, effect, w.
  split; [done|]. split; [done|]. split; [done|]. cbv zeta.
  set (s := processEvents FL initialState pre) in *.
  assert (processEvent FL s event
          = {| st_events :=
                 st_events s
                 ++ [EffectEvent
                       (WriteEffect
                          (LocalTraceLocation (currentFrameID (frameIDs s)) localIndex)
                          (RuntimeTraceValue
                             (traceValueFromJSON
                                (value (RuntimeValue (root_value_after_write w))))))];
               localLifetimeEnds :=
                 <[Some (locationFrame (write_location w)) :=
                     array_set
                       (get_or_empty (localLifetimeEnds s)
                          (Some (locationFrame (write_location w))))
                       localIndex FL]> (localLifetimeEnds s);
               locaLifetimeEndsMax := locaLifetimeEndsMax s;
               frameIDs := frameIDs s |}) as ->.
  { rewrite (processEvent_effect FL s event effect Heffect).
    unfold processEffect, effectLocation. rewrite Hwrite.
    by rewrite (processJSONLocation_resolved FL _ _ _ _ Hresolve). }
  cbn [st_events localLifetimeEnds].
  split; [lia|]. split; [done|].
  split; [apply processEvents_frameIDs|].
  split; [unfold s; by rewrite processEvents_frameIDs|]. split; [done|].
  split; [by rewrite processJSONLocation_index|]. split; [done|]. split; [done|].
  unfold get_or_empty at 1. rewrite lookup_insert_eq. apply array_get_set_eq.
Qed.

(** Frame 1 runs an instruction at pc 3, which ends the life of its
    parameter; frames 2 and 3 are opened and frame 3 is closed; then a
    write names local 0 of frame 1.  The canonical write carries frame 2,
    the last frame opened and not popped, and the row marked is that of
    frame 1, which goes from [[3]] to [[FRAME_LIFETIME]]. *)
Lemma C10_write_event_frame_witness :
  let raw := [ rawOpenFrame 1 "f" [] [Some (rawValue (JNumber 7))];
               rawInstruction 3;
               rawOpenFrame 2 "g" [] [];
               rawOpenFrame 3 "h" [] [];
               rawCloseFrame 3;
               rawWrite (localLocation 1 0) (JNumber 9) ] in
  let write := EffectEvent (WriteEffect (LocalTraceLocation (Some 2) 0)
                                        (RuntimeTraceValue (RString "9"))) in
  st_events (processEvents (-1) initialState raw) !! 5%nat = Some write ∧
  openFrames (take 5 raw) = [1; 2] ∧
  localLifetimeEnds (processEvents (-1) initialState (take 5 raw)) !! Some 1
  = Some [Some 3] ∧
  localLifetimeEnds (processEvents (-1) initialState raw) !! Some 1
  = Some [Some (-1)] ∧
  ∃ pre event post effect w,
    raw = pre ++ event :: post ∧
    isEffect event effect ∧ Write effect = Some w ∧
    let s := processEvents (-1) initialState pre in
    let s' := processEvent (-1) s event in
    let named := locationFrame (write_location w) in
    length (st_events s) = 5%nat ∧
    st_events s' = st_events s ++ [write] ∧
    frameIDs s = openFrames pre ∧
    Some 2 = last (openFrames pre) ∧
    Some 2 = currentFrameID (frameIDs s) ∧
    fst (processJSONLocation (-1) (write_location w) (localLifetimeEnds s)
           (currentFrameID (frameIDs s))) = Some 0%nat ∧
    RuntimeTraceValue (RString "9")
    = RuntimeTraceValue
        (traceValueFromJSON (value (RuntimeValue (root_value_after_write w)))) ∧
    localLifetimeEnds s'
    = <[Some named := array_set (get_or_empty (localLifetimeEnds s) (Some named))
                                0 (-1)]> (localLifetimeEnds s) ∧
    array_get (get_or_empty (localLifetimeEnds s') (Some named)) 0 = Some (-1).
Proof.
  intros raw write.
  assert (st_events (processEvents (-1) initialState raw) !! 5%nat = Some write)
    as Hwrite by (by vm_compute).
  split; [exact Hwrite|]. split; [reflexivity|].
  split; [by vm_compute|]. split; [by vm_compute|].
  apply (C10_write_event_frame (-1) raw (Some 1)
           {| trace_events := st_events (processEvents (-1) initialState raw);
              trace_localLifetimeEnds :=
                localLifetimeEnds (processEvents (-1) initialState raw) |}
           5 (Some 2) 0 (RuntimeTraceValue (RString "9"))).
  - reflexivity.
  - exact Hwrite.
Defined.

(** * Further properties of the ingestion pass *)

(** ** Opening a frame *)

(** The row the loop over the parameters leaves: from index [i] on, the
    slots of the parameters that are present are alive, every other slot is
    as before. *)
Lemma processParameters_row FL parameters (i : nat) paramValues lifetimeEnds (j : nat) :
  array_get (snd (processParameters FL parameters i paramValues lifetimeEnds)) j
  = if decide (i ≤ j)%nat
    then match parameters !! (j - i)%nat with
         | Some (Some _) => Some FL
         | _ => array_get lifetimeEnds j
         end
    else array_get lifetimeEnds j.
Proof.
  revert i paramValues lifetimeEnds.
  induction parameters as [|[param|] rest IH]; intros i paramValues lifetimeEnds;
    simpl.
  - by case_decide.
  - rewrite IH. destruct (decide (i = j)) as [->|Hne].
    + rewrite decide_False by lia. rewrite decide_True by lia.
      rewrite Nat.sub_diag. simpl. apply array_get_set_eq.
    + rewrite array_get_set_ne by done.
      destruct (decide (S i ≤ j)%nat).
      * rewrite decide_True by lia.
        by replace (j - i)%nat with (S (j - S i)) by lia.
      * by rewrite decide_False by lia.
  - rewrite IH. destruct (decide (i = j)) as [->|Hne].
    + rewrite decide_False by lia. rewrite decide_True by lia.
      by rewrite Nat.sub_diag.
    + destruct (decide (S i ≤ j)%nat).
      * rewrite decide_True by lia.
        by replace (j - i)%nat with (S (j - S i)) by lia.
      * by rewrite decide_False by lia.
Qed.

(** X1.  An [OpenFrame] event pushes one canonical [OpenFrame] event that
    carries the decoded parameters that are present, in order, and pushes the
    frame id on the stack.  In the row of the frame exactly the slots of the
    parameters that are present become [FRAME_LIFETIME]; every other slot of
    the row (left there by an earlier frame or effect with the same id),
    every other row and the table of maximal pcs are as before. *)
Theorem X1_open_frame_parameters FL s event open :
  isOpenFrame event open →
  let id := frame_id (frame open) in
  let s' := processEvent FL s event in
  st_events s'
  = st_events s
    ++ [OpenFrameEvent id (function_name (frame open))
          {| addr := address (module (frame open));
             name := module_name (module (frame open)) |}
          (map type_ (locals_types (frame open)))
          (decodeParameters (parameters (frame open)))] ∧
  frameIDs s' = frameIDs s ++ [id] ∧
  locaLifetimeEndsMax s' = locaLifetimeEndsMax s ∧
  (∀ g, g ≠ Some id → localLifetimeEnds s' !! g = localLifetimeEnds s !! g) ∧
  is_Some (localLifetimeEnds s' !! Some id) ∧
  ∀ j : nat,
    array_get (get_or_empty (localLifetimeEnds s') (Some id)) j
    = match parameters (frame open) !! j with
      | Some (Some _) => Some FL
      | _ => array_get (get_or_empty (localLifetimeEnds s) (Some id)) j
      end.
Proof.
  intros Hopen id s'. unfold s'.
  split.
  { rewrite processEvent_events. unfold emittedEvents.
    unfold isOpenFrame in Hopen. by rewrite Hopen. }
  split.
  { rewrite processEvent_frameIDs. unfold stackAfter.
    unfold isOpenFrame in Hopen. by rewrite Hopen. }
  rewrite (processEvent_open FL s event open Hopen). unfold processOpenFrame.
  pose proof (processParameters_row FL (parameters (frame open)) 0 []
                (get_or_empty (localLifetimeEnds s) (Some id))) as Hrow.
  fold id.
  destruct (processParameters _ _ _ _ _) as [paramValues lifetimeEnds].
  cbn [localLifetimeEnds locaLifetimeEndsMax]. simpl in Hrow.
  split; [done|]. split.
  { intros g Hg. by rewrite lookup_insert_ne. }
  split.
  { rewrite lookup_insert_eq. by eexists. }
  intros j. unfold get_or_empty at 1. rewrite lookup_insert_eq. cbn [default].
  rewrite Hrow. by rewrite Nat.sub_0_r.
Qed.

(** A frame id reused with a second parameter missing ([null]): slot 0 is
    alive again, slot 1 keeps the end of life of the earlier frame. *)
Lemma X1_open_frame_parameters_witness :
  let s := processEvents (-1) initialState
             [ rawOpenFrame 1 "f" []
                 [Some (rawValue (JNumber 7)); Some (rawValue (JNumber 8))];
               rawInstruction 5;
               rawCloseFrame 1 ] in
  let event := rawOpenFrame 1 "g" [] [Some (rawValue (JNumber 9)); None] in
  let s' := processEvent (-1) s event in
  isOpenFrame event
    {| frame :=
         {| binary_member_index := 0; frame_id := 1; function_name := "g";
            is_native := false; locals_types := [];
            module := {| address := "0x1"; module_name := "m" |};
            parameters := [Some (rawValue (JNumber 9)); None];
            return_types := []; type_instantiation := [] |};
       open_gas_left := 0 |} ∧
  array_get (get_or_empty (localLifetimeEnds s') (Some 1)) 0 = Some (-1) ∧
  array_get (get_or_empty (localLifetimeEnds s') (Some 1)) 1 = Some 5.
Proof.
  intros s event s'.
  assert (isOpenFrame event
            {| frame :=
                 {| binary_member_index := 0; frame_id := 1; function_name := "g";
                    is_native := false; locals_types := [];
                    module := {| address := "0x1"; module_name := "m" |};
                    parameters := [Some (rawValue (JNumber 9)); None];
                    return_types := []; type_instantiation := [] |};
               open_gas_left := 0 |}) as Hopen by reflexivity.
  split; [exact Hopen|].
  destruct (X1_open_frame_parameters (-1) s event _ Hopen)
    as (_ & _ & _ & _ & _ & Hrow).
  split.
  - exact (Hrow 0%nat).
  - etrans; [exact (Hrow 1%nat)|by vm_compute].
Defined.

(** ** Rows are never removed *)

Lemma processEvent_row_kept FL s event key :
  is_Some (localLifetimeEnds s !! key) →
  is_Some (localLifetimeEnds (processEvent FL s event) !! key).
Proof.
  intros Hrow. unfold processEvent.
  destruct (OpenFrame event) as [open|].
  { unfold processOpenFrame.
    destruct (processParameters _ _ _ _ _) as [paramValues lifetimeEnds]. simpl.
    rewrite lookup_insert_is_Some. destruct (decide (Some (frame_id (frame open)) = key));
      [by left|by right]. }
  destruct (CloseFrame event) as [close|]; [done|].
  destruct (Instruction event) as [instr|].
  { unfold processInstruction. simpl. rewrite lookup_insert_is_Some.
    destruct (decide (currentFrameID (frameIDs s) = key)); [by left|by right]. }
  destruct (Effect event) as [effect|]; [|done].
  unfold processEffect.
  destruct (effectLocation effect) as [location|]; [|done].
  destruct (resolveLocation location (currentFrameID (frameIDs s)))
    as [localIndex|] eqn:Hresolve.
  - rewrite (processJSONLocation_resolved FL _ _ _ _ Hresolve). simpl.
    rewrite lookup_insert_is_Some.
    destruct (decide (Some (locationFrame location) = key)); [by left|by right].
  - by rewrite (processJSONLocation_unresolved FL _ _ _ Hresolve).
Qed.

Lemma processEvents_row_kept FL (raw : list JSONTraceEvent) s key :
  is_Some (localLifetimeEnds s !! key) →
  is_Some (localLifetimeEnds (processEvents FL s raw) !! key).
Proof.
  revert s. induction raw as [|event raw IH]; intros s Hrow; [done|].
  simpl. by apply IH, processEvent_row_kept.
Qed.

Lemma processEvent_open_row FL s event open :
  isOpenFrame event open →
  is_Some (localLifetimeEnds (processEvent FL s event) !! Some (frame_id (frame open))).
Proof.
  intros Hopen. rewrite (processEvent_open FL s event open Hopen).
  unfold processOpenFrame.
  destruct (processParameters _ _ _ _ _) as [paramValues lifetimeEnds]. simpl.
  rewrite lookup_insert_eq. by eexists.
Qed.

(** X2.  Every frame id that an [OpenFrame] event of the trace carries has
    a row in the table [readTrace] returns, whatever follows the event. *)
Theorem X2_opened_frame_has_row FL pre event post version trace open :
  isOpenFrame event open →
  readTrace FL (traceFile (pre ++ event :: post) version) = inr trace →
  is_Some (trace_localLifetimeEnds trace !! Some (frame_id (frame open))).
Proof.
  intros Hopen. unfold traceFile. rewrite readTrace_parsed. intros [= <-].
  cbn [trace_localLifetimeEnds].
  rewrite processEvents_app, processEvents_cons.
  by apply processEvents_row_kept, processEvent_open_row.
Qed.

(** Frame 1 is opened without parameters and closed; frame 2 follows. *)
Lemma X2_opened_frame_has_row_witness :
  let pre := @nil JSONTraceEvent in
  let event := rawOpenFrame 1 "f" [] [] in
  let post := [ rawCloseFrame 1; rawOpenFrame 2 "g" [] []; rawCloseFrame 2 ] in
  ∃ trace,
    readTrace (-1) (traceFile (pre ++ event :: post) None) = inr trace ∧
    is_Some (trace_localLifetimeEnds trace !! Some 1).
Proof.
  intros pre event post. eexists. split; [reflexivity|].
  apply (X2_opened_frame_has_row (-1) pre event post None _
           {| frame :=
                {| binary_member_index := 0; frame_id := 1; function_name := "f";
                   is_native := false; locals_types := [];
                   module := {| address := "0x1"; module_name := "m" |};
                   parameters := []; return_types := [];
                   type_instantiation := [] |};
              open_gas_left := 0 |}); reflexivity.
Defined.

(** ** The frames on the stack *)

(** Every id on the stack is in the stack the run started from or is the id
    of an [OpenFrame] event of the run. *)
Lemma processEvents_stack_origin FL (raw : list JSONTraceEvent) s f :
  f ∈ frameIDs (processEvents FL s raw) →
  f ∈ frameIDs s ∨
  ∃ event open, event ∈ raw ∧ isOpenFrame event open ∧ frame_id (frame open) = f.
Proof.
  revert s. induction raw as [|event raw IH]; intros s Hf; [by left|].
  simpl in Hf. destruct (IH _ Hf) as [Hstack | (event' & open & Hin & Hopen & Hid)].
  - rewrite processEvent_frameIDs in Hstack. unfold stackAfter in Hstack.
    destruct (OpenFrame event) as [open|] eqn:Hopen.
    + apply elem_of_app in Hstack as [Hold | Hnew%list_elem_of_singleton];
        [by left|].
      right. exists event, open. split; [by left|]. by split.
    + destruct (CloseFrame event); [|by left].
      left. by apply elem_of_removelast.
  - right. exists event', open. split; [by right|]. by split.
Qed.

(** Frames on the stack keep their rows. *)
Lemma processEvents_stack_rows FL (raw : list JSONTraceEvent) s :
  (∀ f, f ∈ frameIDs s → is_Some (localLifetimeEnds s !! Some f)) →
  ∀ f, f ∈ frameIDs (processEvents FL s raw) →
       is_Some (localLifetimeEnds (processEvents FL s raw) !! Some f).
Proof.
  revert s. induction raw as [|event raw IH]; intros s Hrows; [done|].
  simpl. apply IH. intros f Hf.
  rewrite processEvent_frameIDs in Hf. unfold stackAfter in Hf.
  destruct (OpenFrame event) as [open|] eqn:Hopen.
  - apply elem_of_app in Hf as [Hold | ->%list_elem_of_singleton].
    + by apply processEvent_row_kept, Hrows.
    + by apply processEvent_open_row.
  - apply processEvent_row_kept, Hrows.
    destruct (CloseFrame event); [by apply elem_of_removelast|done].
Qed.

(** X3.  At any point of the ingestion of a trace, every frame id on the
    stack of open frames is the id of an [OpenFrame] event seen so far and
    has a row in the table of lifetime ends; so the row an [Instruction]
    works on when some frame is open is a row of the table, never the fresh
    empty array. *)
Theorem X3_open_frames_have_rows FL (raw : list JSONTraceEvent) f :
  let s := processEvents FL initialState raw in
  f ∈ frameIDs s →
  (∃ event open, event ∈ raw ∧ isOpenFrame event open ∧ frame_id (frame open) = f) ∧
  is_Some (localLifetimeEnds s !! Some f) ∧
  (currentFrameID (frameIDs s) = Some f →
   localLifetimeEnds s !! Some f
   = Some (get_or_empty (localLifetimeEnds s) (currentFrameID (frameIDs s)))).
Proof.
  intros s Hf. split.
  { destruct (processEvents_stack_origin FL raw initialState f Hf) as [Hinit|Hopen];
      [|done].
    by apply elem_of_nil in Hinit. }
  assert (is_Some (localLifetimeEnds s !! Some f)) as Hrow.
  { apply processEvents_stack_rows; [|done]. by intros g Hg%elem_of_nil. }
  split; [done|]. intros ->. unfold get_or_empty.
  by destruct Hrow as [row ->].
Qed.

(** Two frames are open when the second instruction is reached. *)
Lemma X3_open_frames_have_rows_witness :
  let raw := [ rawOpenFrame 1 "f" [] [];
               rawInstruction 0;
               rawOpenFrame 2 "g" [] [Some (rawValue (JNumber 3))];
               rawInstruction 0 ] in
  let s := processEvents (-1) initialState raw in
  1 ∈ frameIDs s ∧ is_Some (localLifetimeEnds s !! Some 1).
Proof.
  intros raw s.
  assert (1 ∈ frameIDs s) as Hopen by (vm_compute; left).
  split; [exact Hopen|].
  exact (proj1 (proj2 (X3_open_frames_have_rows (-1) raw 1 Hopen))).
Defined.

(** ** What one event does to one slot *)

Lemma processInstruction_rows FL s instr :
  rowsAt (processInstruction FL s instr) (currentFrameID (frameIDs s))
  = instructionLoop FL (pc instr)
      (get_or_empty (localLifetimeEnds s) (currentFrameID (frameIDs s)))
      (get_or_empty (locaLifetimeEndsMax s) (currentFrameID (frameIDs s))).
Proof.
  unfold rowsAt, processInstruction. simpl.
  set (rows := instructionLoop _ _ _ _).
  unfold get_or_empty. rewrite !lookup_insert_eq. simpl. by destruct rows.
Qed.

Lemma processInstruction_rows_other FL s instr key :
  key ≠ currentFrameID (frameIDs s) →
  localLifetimeEnds (processInstruction FL s instr) !! key = localLifetimeEnds s !! key ∧
  locaLifetimeEndsMax (processInstruction FL s instr) !! key
  = locaLifetimeEndsMax s !! key.
Proof.
  intros Hkey. unfold processInstruction. simpl.
  by rewrite !lookup_insert_ne.
Qed.

(** One event either leaves a slot as it is, or marks it alive, or treats
    it as the [Instruction] case does. *)
Lemma processEvent_slot FL s event key (i : nat) :
  let old := slotOf (rowsAt s key) i in
  let new := slotOf (rowsAt (processEvent FL s event) key) i in
  new = old ∨ new = (Some FL, snd old) ∨
  ∃ instr, isInstruction event instr ∧ key = currentFrameID (frameIDs s) ∧
           new = slotInstruction FL (pc instr) old.
Proof.
  intros old new. unfold new, old. clear new old. unfold processEvent.
  destruct (OpenFrame event) as [open|] eqn:Hopen.
  { unfold processOpenFrame.
    pose proof (processParameters_row FL (parameters (frame open)) 0 []
                  (get_or_empty (localLifetimeEnds s) (Some (frame_id (frame open)))) i)
      as Hrow.
    destruct (processParameters _ _ _ _ _) as [paramValues lifetimeEnds].
    simpl in Hrow. unfold rowsAt, slotOf. simpl.
    destruct (decide (key = Some (frame_id (frame open)))) as [->|Hkey].
    - unfold get_or_empty in *. rewrite !lookup_insert_eq. simpl. rewrite !Hrow.
      destruct (parameters (frame open) !! (i - 0)%nat) as [[param|]|];
        [right; by left|by left|by left].
    - left. unfold get_or_empty. by rewrite lookup_insert_ne. }
  destruct (CloseFrame event) as [close|] eqn:Hclose; [by left|].
  destruct (Instruction event) as [instr|] eqn:Hinstr.
  { destruct (decide (key = currentFrameID (frameIDs s))) as [->|Hkey].
    - rewrite processInstruction_rows.
      destruct (decide (i < length (get_or_empty (localLifetimeEnds s)
                                      (currentFrameID (frameIDs s))))%nat).
      + right. right. exists instr. split; [done|]. split; [done|].
        by apply instructionLoop_slot.
      + left. apply instructionLoop_beyond. lia.
    - left. destruct (processInstruction_rows_other FL s instr key Hkey) as [He Hm].
      unfold rowsAt, get_or_empty. by rewrite He, Hm. }
  destruct (Effect event) as [effect|]; [|by left].
  unfold processEffect.
  destruct (effectLocation effect) as [location|]; [|by left].
  destruct (resolveLocation location (currentFrameID (frameIDs s)))
    as [localIndex|] eqn:Hresolve.
  - rewrite (processJSONLocation_resolved FL _ _ _ _ Hresolve).
    unfold rowsAt, slotOf. simpl.
    destruct (decide (key = Some (locationFrame location))) as [->|Hkey].
    + unfold get_or_empty. rewrite !lookup_insert_eq. simpl.
      destruct (decide (i = localIndex)) as [->|Hi].
      * right. left. by rewrite !array_get_set_eq.
      * left. by rewrite !array_get_set_ne.
    + left. unfold get_or_empty. by rewrite lookup_insert_ne.
  - rewrite (processJSONLocation_unresolved FL _ _ _ Hresolve). by left.
Qed.

(** ** What an instruction leaves alone *)

(** X4.  An [Instruction] event pushes one canonical [Instruction] event and
    leaves the stack as it is.  In both tables it touches only the rows of
    the topmost open frame (of the key [undefined] when no frame is open);
    it never changes the length of the row of lifetime ends; it leaves both
    entries of a slot whose end of life is a program counter other than the
    sentinel as they are, and every slot beyond the length of the row. *)
Theorem X4_instruction_leaves_rest FL s event instr :
  isInstruction event instr →
  let top := currentFrameID (frameIDs s) in
  let s' := processEvent FL s event in
  st_events s' = st_events s ++ [InstructionEvent (pc instr)] ∧
  frameIDs s' = frameIDs s ∧
  (∀ key, key ≠ top →
          localLifetimeEnds s' !! key = localLifetimeEnds s !! key ∧
          locaLifetimeEndsMax s' !! key = locaLifetimeEndsMax s !! key) ∧
  length (fst (rowsAt s' top)) = length (fst (rowsAt s top)) ∧
  (∀ (i : nat) e,
     fst (slotOf (rowsAt s top) i) = Some e → e ≠ FL →
     slotOf (rowsAt s' top) i = slotOf (rowsAt s top) i) ∧
  (∀ i : nat,
     (length (fst (rowsAt s top)) ≤ i)%nat →
     slotOf (rowsAt s' top) i = slotOf (rowsAt s top) i).
Proof.
  intros Hinstr top s'. unfold s'.
  rewrite (processEvent_instruction FL s event instr Hinstr).
  split; [done|]. split; [done|]. split.
  { intros key Hkey. by apply processInstruction_rows_other. }
  unfold top. rewrite processInstruction_rows.
  split; [apply instructionLoop_length|]. split.
  - intros i e He Hne.
    destruct (decide (i < length (fst (rowsAt s (currentFrameID (frameIDs s)))))%nat)
      as [Hlt|Hge].
    + unfold rowsAt in *. simpl in *.
      rewrite instructionLoop_slot by done.
      unfold slotInstruction, slotOf in *. simpl in *. rewrite He. simpl.
      by rewrite bool_decide_eq_false_2.
    + apply instructionLoop_beyond. unfold rowsAt in Hge. simpl in Hge. lia.
  - intros i Hge. by apply instructionLoop_beyond.
Qed.

(** Frame 1 has two parameters; the first is dead since pc 3, the second
    was read again. *)
Lemma X4_instruction_leaves_rest_witness :
  let s := processEvents (-1) initialState
             [ rawOpenFrame 1 "f" []
                 [Some (rawValue (JNumber 7)); Some (rawValue (JNumber 8))];
               rawInstruction 3;
               rawRead (localLocation 1 1) (JNumber 8) ] in
  let s' := processEvent (-1) s (rawInstruction 9) in
  fst (slotOf (rowsAt s (Some 1)) 0) = Some 3 ∧
  slotOf (rowsAt s' (Some 1)) 0 = (Some 3, Some 3) ∧
  slotOf (rowsAt s' (Some 1)) 1 = (Some 9, Some 9).
Proof.
  intros s s'.
  assert (fst (slotOf (rowsAt s (Some 1)) 0) = Some 3) as Hdead by (by vm_compute).
  split; [exact Hdead|]. split; [|by vm_compute].
  destruct (X4_instruction_leaves_rest (-1) s (rawInstruction 9)
              {| instr_gas_left := 0; instruction := "NOP"; pc := 9 |})
    as (_ & _ & _ & _ & Hkept & _).
  - unfold isInstruction. simpl. done.
  - etrans; [exact (Hkept 0%nat 3 Hdead ltac:(lia))|by vm_compute].
Defined.

(** ** Invariants of the two tables *)

Lemma slotInstruction_consistent FL pc em e :
  (∀ e0, fst em = Some e0 → e0 ≠ FL → snd em = Some e0) →
  fst (slotInstruction FL pc em) = Some e → e ≠ FL →
  snd (slotInstruction FL pc em) = Some e.
Proof.
  intros Hold. unfold slotInstruction.
  destruct (unset_or_alive FL (fst em) && unset_or_below (snd em) pc); simpl.
  - by intros [= ->].
  - apply Hold.
Qed.

Lemma processEvent_consistent FL s event :
  lifetimeConsistent FL s → lifetimeConsistent FL (processEvent FL s event).
Proof.
  intros Hs key i e.
  destruct (processEvent_slot FL s event key i)
    as [-> | [-> | (instr & _ & _ & ->)]].
  - apply Hs.
  - simpl. by intros [= ->].
  - apply slotInstruction_consistent. intros e0. apply Hs.
Qed.

Lemma processEvents_consistent FL (raw : list JSONTraceEvent) s :
  lifetimeConsistent FL s → lifetimeConsistent FL (processEvents FL s raw).
Proof.
  revert s. induction raw as [|event raw IH]; intros s Hs; [done|].
  simpl. by apply IH, processEvent_consistent.
Qed.

Lemma initialState_consistent FL : lifetimeConsistent FL initialState.
Proof. by intros key i e. Qed.

(** The maximal pc of a slot never goes down and is never unset again. *)
Lemma processEvent_max_grows FL s event key (i : nat) m :
  snd (slotOf (rowsAt s key) i) = Some m →
  ∃ m', snd (slotOf (rowsAt (processEvent FL s event) key) i) = Some m' ∧ m ≤ m'.
Proof.
  intros Hm.
  destruct (processEvent_slot FL s event key i)
    as [-> | [-> | (instr & _ & _ & ->)]].
  - exists m. split; [done|lia].
  - exists m. split; [done|lia].
  - destruct (slotOf (rowsAt s key) i) as [e0 m0]. simpl in Hm. subst m0.
    unfold slotInstruction. simpl.
    destruct (unset_or_alive FL e0); simpl; [|exists m; split; [done|lia]].
    case_bool_decide; simpl.
    + exists (pc instr). split; [done|lia].
    + exists m. split; [done|lia].
Qed.

Lemma processEvents_max_grows FL (raw : list JSONTraceEvent) s key (i : nat) m :
  snd (slotOf (rowsAt s key) i) = Some m →
  ∃ m', snd (slotOf (rowsAt (processEvents FL s raw) key) i) = Some m' ∧ m ≤ m'.
Proof.
  revert s m. induction raw as [|event raw IH]; intros s m Hm.
  { exists m. split; [done|lia]. }
  simpl. destruct (processEvent_max_grows FL s event key i m Hm) as (m1 & Hm1 & Hle1).
  destruct (IH _ _ Hm1) as (m2 & Hm2 & Hle2). exists m2. split; [done|lia].
Qed.

(** X5.  At any point of the ingestion of a trace, a slot whose end of life
    is a program counter other than the sentinel has that same program
    counter as its recorded maximum: the end of life shown for a dead local
    is the largest pc ever stored for it. *)
Theorem X5_end_of_life_is_maximum FL (raw : list JSONTraceEvent) key (i : nat) e :
  let s := processEvents FL initialState raw in
  array_get (get_or_empty (localLifetimeEnds s) key) i = Some e →
  e ≠ FL →
  array_get (get_or_empty (locaLifetimeEndsMax s) key) i = Some e.
Proof.
  intros s.
  apply (processEvents_consistent FL raw initialState (initialState_consistent FL)).
Qed.

Lemma X5_end_of_life_is_maximum_witness :
  let s := processEvents (-1) initialState (loopTrace 12) in
  array_get (get_or_empty (localLifetimeEnds s) (Some 1)) 0 = Some 13 ∧
  array_get (get_or_empty (locaLifetimeEndsMax s) (Some 1)) 0 = Some 13.
Proof.
  intros s.
  assert (array_get (get_or_empty (localLifetimeEnds s) (Some 1)) 0 = Some 13)
    as Hend by (by vm_compute).
  split; [exact Hend|].
  apply (X5_end_of_life_is_maximum (-1) (loopTrace 12) (Some 1) 0 13 Hend). lia.
Defined.

(** X6.  Over any further events, the maximal pc recorded for a slot never
    decreases and never becomes unset; and, from a state reached from the
    start of a trace, an end of life that is a program counter is never
    replaced by a smaller program counter: between two recordings the value
    can only be the sentinel. *)
Theorem X6_end_of_life_never_decreases FL (raw later : list JSONTraceEvent) key (i : nat) :
  let s := processEvents FL initialState raw in
  let s' := processEvents FL s later in
  (∀ m, array_get (get_or_empty (locaLifetimeEndsMax s) key) i = Some m →
        ∃ m', array_get (get_or_empty (locaLifetimeEndsMax s') key) i = Some m' ∧
              m ≤ m') ∧
  (∀ e e', array_get (get_or_empty (localLifetimeEnds s) key) i = Some e → e ≠ FL →
           array_get (get_or_empty (localLifetimeEnds s') key) i = Some e' → e' ≠ FL →
           e ≤ e').
Proof.
  intros s s'. split.
  - intros m Hm. by apply (processEvents_max_grows FL later s key i m).
  - intros e e' He Hne He' Hne'.
    pose proof (processEvents_consistent FL raw initialState
                  (initialState_consistent FL) key i e He Hne) as Hm.
    assert (lifetimeConsistent FL s') as Hs'.
    { apply processEvents_consistent, processEvents_consistent,
        initialState_consistent. }
    pose proof (Hs' key i e' He' Hne') as Hm'.
    destruct (processEvents_max_grows FL later s key i e Hm) as (m' & Hm'' & Hle).
    fold s' in Hm''. simpl in Hm', Hm''. congruence.
Qed.

(** The first pass of the loop records 10, the rest of the run records 13. *)
Lemma X6_end_of_life_never_decreases_witness :
  let raw := take 12 (loopTrace 12) in
  let later := drop 12 (loopTrace 12) in
  let s := processEvents (-1) initialState raw in
  let s' := processEvents (-1) s later in
  array_get (get_or_empty (localLifetimeEnds s) (Some 1)) 0 = Some 10 ∧
  array_get (get_or_empty (localLifetimeEnds s') (Some 1)) 0 = Some 13 ∧
  10 ≤ 13.
Proof.
  intros raw later s s'.
  assert (array_get (get_or_empty (localLifetimeEnds s) (Some 1)) 0 = Some 10)
    as He by (by vm_compute).
  assert (array_get (get_or_empty (localLifetimeEnds s') (Some 1)) 0 = Some 13)
    as He' by (by vm_compute).
  split; [exact He|]. split; [exact He'|].
  apply (proj2 (X6_end_of_life_never_decreases (-1) raw later (Some 1) 0) 10 13 He
           ltac:(lia) He' ltac:(lia)).
Defined.

(** ** The canonical events as a function of the raw events *)

(** X7.  The sentinel has no influence on whether [readTrace] throws, on
    what it throws, or on the canonical events it returns: only the entries
    of the lifetime table depend on it. *)
Theorem X7_events_independent_of_sentinel FL1 FL2 (file : ParseOutcome) :
  match readTrace FL1 file, readTrace FL2 file with
  | inl exception1, inl exception2 => exception1 = exception2
  | inr trace1, inr trace2 => trace_events trace1 = trace_events trace2
  | _, _ => False
  end.
Proof.
  destruct file as [|[[raw|] version]]; simpl; try done.
  by destruct (processEvents_skeleton FL1 FL2 raw initialState initialState
                 eq_refl eq_refl).
Qed.

(** X8.  Reading a prefix of the raw events gives a prefix of the canonical
    events: a canonical event, once pushed, is never changed or removed by
    what follows. *)
Theorem X8_events_of_prefix FL (pre post : list JSONTraceEvent) version :
  ∃ trace1 trace2,
    readTrace FL (traceFile pre version) = inr trace1 ∧
    readTrace FL (traceFile (pre ++ post) version) = inr trace2 ∧
    trace_events trace1 `prefix_of` trace_events trace2.
Proof.
  eexists _, _. unfold traceFile. rewrite !readTrace_parsed.
  split; [done|]. split; [done|]. cbn [trace_events].
  rewrite processEvents_app.
  destruct (processEvents_events_prefix FL post (processEvents FL initialState pre))
    as [pushed ->].
  by exists pushed.
Qed.

Lemma emittedEvents_kinds stack event :
  filter (λ kind, kind ≠ KindEffect) (eventKind <$> emittedEvents stack event)
  = filter (λ kind, kind ≠ KindEffect) (option_list (rawKind event)) ∧
  (length (emittedEvents stack event) ≤ 1)%nat.
Proof.
  unfold emittedEvents, rawKind.
  destruct (OpenFrame event); [split; [reflexivity|simpl; lia]|].
  destruct (CloseFrame event); [split; [reflexivity|simpl; lia]|].
  destruct (Instruction event); [split; [reflexivity|simpl; lia]|].
  destruct (Effect event) as [effect|]; [|split; [reflexivity|simpl; lia]].
  destruct (Write effect) as [w|]; [|split; [reflexivity|simpl; lia]].
  destruct (resolveLocation _ _); (split; [reflexivity|simpl; lia]).
Qed.

Lemma processEvents_kinds FL (raw : list JSONTraceEvent) s :
  filter (λ kind, kind ≠ KindEffect) (eventKind <$> st_events (processEvents FL s raw))
  = filter (λ kind, kind ≠ KindEffect) (eventKind <$> st_events s)
    ++ filter (λ kind, kind ≠ KindEffect) (omap rawKind raw) ∧
  (length (st_events (processEvents FL s raw)) ≤ length (st_events s) + length raw)%nat.
Proof.
  revert s. induction raw as [|event raw IH]; intros s.
  { simpl. rewrite app_nil_r. split; [done|lia]. }
  rewrite processEvents_cons. destruct (IH (processEvent FL s event)) as [-> Hlen].
  rewrite processEvent_events in Hlen |- *.
  destruct (emittedEvents_kinds (frameIDs s) event) as [Hkinds Hone].
  rewrite length_app in Hlen. split; [|simpl; lia].
  rewrite fmap_app, filter_app, Hkinds, <- app_assoc. f_equal.
  simpl. destruct (rawKind event) as [kind|]; simpl; [|done].
  rewrite !filter_cons, filter_nil. by case_decide.
Qed.

(** X9.  Leaving the effects aside, the kinds of the canonical events are,
    in order, the kinds of the cases the raw events take: every raw
    [OpenFrame], [CloseFrame] and [Instruction] event gives exactly one
    canonical event of its kind, at its place.  No raw event gives more than
    one canonical event. *)
Theorem X9_one_event_per_raw_event FL (raw : list JSONTraceEvent) version :
  ∃ trace,
    readTrace FL (traceFile raw version) = inr trace ∧
    filter (λ kind, kind ≠ KindEffect) (eventKind <$> trace_events trace)
    = filter (λ kind, kind ≠ KindEffect) (omap rawKind raw) ∧
    (length (trace_events trace) ≤ length raw)%nat.
Proof.
  eexists. unfold traceFile. rewrite readTrace_parsed. split; [done|].
  cbn [trace_events].
  destruct (processEvents_kinds FL raw initialState) as [-> Hlen].
  by split.
Qed.

Lemma processEvent_inert FL s event :
  isInert event = true → processEvent FL s event = s.
Proof.
  unfold isInert, processEvent.
  destruct (OpenFrame event); [done|].
  destruct (CloseFrame event); [done|].
  destruct (Instruction event); [done|].
  destruct (Effect event) as [effect|]; [|done].
  unfold processEffect. by destruct (effectLocation effect).
Qed.

Lemma processEvents_drop_inert FL (raw : list JSONTraceEvent) s :
  processEvents FL s (List.filter (λ event, negb (isInert event)) raw)
  = processEvents FL s raw.
Proof.
  revert s. induction raw as [|event raw IH]; intros s; [done|].
  simpl. destruct (isInert event) eqn:Hinert; simpl.
  - by rewrite (processEvent_inert FL s event Hinert).
  - apply IH.
Qed.

(** X10.  Events with none of the four tags, and effects that are neither
    a write nor a read (pushes and pops), can be taken out of a trace
    without any change to what [readTrace] returns. *)
Theorem X10_inert_events_removable FL (raw : list JSONTraceEvent) version :
  readTrace FL (traceFile (List.filter (λ event, negb (isInert event)) raw) version)
  = readTrace FL (traceFile raw version).
Proof.
  unfold traceFile. rewrite !readTrace_parsed.
  by rewrite processEvents_drop_inert.
Qed.

(** X11.  On the two tables and on the stack, an effect acts through its
    location only: a read and a write at the same location leave the same
    tables and stack.  An effect without a [Write] pushes no canonical
    event. *)
Theorem X11_read_like_write FL s event1 effect1 event2 effect2 :
  isEffect event1 effect1 → isEffect event2 effect2 →
  effectLocation effect1 = effectLocation effect2 →
  let s1 := processEvent FL s event1 in
  let s2 := processEvent FL s event2 in
  localLifetimeEnds s1 = localLifetimeEnds s2 ∧
  locaLifetimeEndsMax s1 = locaLifetimeEndsMax s2 ∧
  frameIDs s1 = frameIDs s2 ∧
  (Write effect1 = None → st_events s1 = st_events s).
Proof.
  intros Heffect1 Heffect2 Hlocation s1 s2. unfold s1, s2.
  rewrite (processEvent_effect FL s event1 effect1 Heffect1).
  rewrite (processEvent_effect FL s event2 effect2 Heffect2).
  unfold processEffect. rewrite Hlocation.
  destruct (effectLocation effect2) as [location|].
  - destruct (processJSONLocation _ _ _ _) as [[localIndex|] ends]; simpl.
    + repeat split; try done. intros ->. by rewrite app_nil_r.
    + by repeat split.
  - by repeat split.
Qed.

Lemma X11_read_like_write_witness :
  let s := processEvents (-1) initialState
             [ rawOpenFrame 1 "f" [] [Some (rawValue (JNumber 7))]; rawInstruction 2 ] in
  let s1 := processEvent (-1) s (rawRead (localLocation 1 0) (JNumber 7)) in
  let s2 := processEvent (-1) s (rawWrite (localLocation 1 0) (JNumber 8)) in
  localLifetimeEnds s1 = localLifetimeEnds s2 ∧
  locaLifetimeEndsMax s1 = locaLifetimeEndsMax s2 ∧
  frameIDs s1 = frameIDs s2 ∧
  st_events s1 = st_events s.
Proof.
  intros s s1 s2.
  destruct (X11_read_like_write (-1) s
              (rawRead (localLocation 1 0) (JNumber 7))
              {| Push := None; Pop := None; Write := None;
                 Read := Some {| read_location := localLocation 1 0; moved := false;
                                 root_value_read := rawValue (JNumber 7) |} |}
              (rawWrite (localLocation 1 0) (JNumber 8))
              {| Push := None; Pop := None;
                 Write := Some {| write_location := localLocation 1 0;
                                  root_value_after_write := rawValue (JNumber 8) |};
                 Read := None |})
    as (Hends & Hmax & Hstack & Hevents).
  - unfold isEffect. simpl. done.
  - unfold isEffect. simpl. done.
  - reflexivity.
  - split; [exact Hends|]. split; [exact Hmax|]. split; [exact Hstack|].
    apply Hevents. reflexivity.
Defined.

(** ** Effects compose *)

Section js_array_compose.
Context {A : Type}.
Implicit Types (arr : list (option A)) (i j k : nat) (v w : A).

Lemma array_set_lookup arr i v k :
  array_set arr i v !! k
  = if decide (k = i) then Some (Some v)
    else if decide (k < length arr)%nat then arr !! k
    else if decide (k < i)%nat then Some None
    else None.
Proof.
  unfold array_set. destruct (decide (i < length arr)%nat) as [Hin|Hout].
  - destruct (decide (k = i)) as [->|Hne].
    + by rewrite list_lookup_insert_eq.
    + rewrite list_lookup_insert_ne by done.
      destruct (decide (k < length arr)%nat); [done|].
      rewrite decide_False by lia. apply lookup_ge_None_2. lia.
  - destruct (decide (k = i)) as [->|Hne].
    + rewrite lookup_app_r by lia.
      rewrite lookup_app_r by (rewrite length_replicate; lia).
      rewrite length_replicate.
      by replace (i - length arr - (i - length arr))%nat with 0%nat by lia.
    + destruct (decide (k < length arr)%nat); [by rewrite lookup_app_l|].
      rewrite lookup_app_r by lia.
      destruct (decide (k < i)%nat).
      * rewrite lookup_app_l by (rewrite length_replicate; lia).
        apply lookup_replicate_2. lia.
      * apply lookup_ge_None_2. rewrite length_app, length_replicate. simpl. lia.
Qed.

Lemma array_set_idemp arr i v :
  array_set (array_set arr i v) i v = array_set arr i v.
Proof.
  apply list_eq. intros k.
  rewrite (array_set_lookup (array_set arr i v)), length_array_set.
  destruct (decide (k = i)) as [->|Hne].
  - rewrite array_set_lookup. by rewrite decide_True.
  - destruct (decide (k < length arr `max` S i)%nat); [done|].
    rewrite decide_False by lia.
    symmetry. apply lookup_ge_None_2. rewrite length_array_set. lia.
Qed.

Lemma array_set_comm arr i j v :
  array_set (array_set arr i v) j v = array_set (array_set arr j v) i v.
Proof.
  apply list_eq. intros k.
  rewrite !array_set_lookup, !length_array_set.
  repeat case_decide; try done; try lia.
Qed.
End js_array_compose.

Lemma markAlive_comm (FL : Z) (ends : gmap (option Z) (list (option Z)))
    (f1 f2 : Z) (i1 i2 : nat) :
  <[Some f2 := array_set
                 (get_or_empty
                    (<[Some f1 := array_set (get_or_empty ends (Some f1)) i1 FL]> ends)
                    (Some f2)) i2 FL]>
    (<[Some f1 := array_set (get_or_empty ends (Some f1)) i1 FL]> ends)
  = <[Some f1 := array_set
                   (get_or_empty
                      (<[Some f2 := array_set (get_or_empty ends (Some f2)) i2 FL]> ends)
                      (Some f1)) i1 FL]>
      (<[Some f2 := array_set (get_or_empty ends (Some f2)) i2 FL]> ends).
Proof.
  destruct (decide (f1 = f2)) as [->|Hne].
  - unfold get_or_empty. rewrite !lookup_insert_eq. simpl.
    rewrite !insert_insert_eq. f_equal. apply array_set_comm.
  - unfold get_or_empty.
    rewrite (lookup_insert_ne _ (Some f1) (Some f2)) by congruence.
    rewrite (lookup_insert_ne _ (Some f2) (Some f1)) by congruence.
    apply insert_insert_ne. congruence.
Qed.

(** X12.  On the table of lifetime ends, read and write effects are
    idempotent and commute: processing the same effect twice in a row
    leaves the table it leaves when processed once, and two effects
    processed in either order leave the same table; the table of maximal pcs
    and the stack are left as they are. *)
Theorem X12_effects_idempotent_commute FL s event1 effect1 event2 effect2 :
  isEffect event1 effect1 → isEffect event2 effect2 →
  let once := processEvent FL s event1 in
  localLifetimeEnds (processEvent FL once event1) = localLifetimeEnds once ∧
  localLifetimeEnds (processEvent FL once event2)
  = localLifetimeEnds (processEvent FL (processEvent FL s event2) event1) ∧
  locaLifetimeEndsMax (processEvent FL once event2) = locaLifetimeEndsMax s ∧
  frameIDs (processEvent FL once event2) = frameIDs s.
Proof.
  intros Heffect1 Heffect2 once. unfold once.
  rewrite !(processEvent_effect FL _ event1 effect1 Heffect1).
  rewrite !(processEvent_effect FL _ event2 effect2 Heffect2).
  assert (∀ s0 effect,
            frameIDs (processEffect FL s0 effect) = frameIDs s0 ∧
            locaLifetimeEndsMax (processEffect FL s0 effect) = locaLifetimeEndsMax s0 ∧
            localLifetimeEnds (processEffect FL s0 effect)
            = match effectLocation effect with
              | Some location =>
                  match resolveLocation location (currentFrameID (frameIDs s0)) with
                  | Some localIndex =>
                      <[Some (locationFrame location) :=
                          array_set (get_or_empty (localLifetimeEnds s0)
                                       (Some (locationFrame location)))
                                    localIndex FL]> (localLifetimeEnds s0)
                  | None => localLifetimeEnds s0
                  end
              | None => localLifetimeEnds s0
              end) as Hstep.
  { intros s0 effect. unfold processEffect.
    destruct (effectLocation effect) as [location|]; [|done].
    destruct (resolveLocation location (currentFrameID (frameIDs s0)))
      as [localIndex|] eqn:Hresolve.
    - by rewrite (processJSONLocation_resolved FL _ _ _ _ Hresolve).
    - by rewrite (processJSONLocation_unresolved FL _ _ _ Hresolve). }
  destruct (Hstep s effect1) as (Hstack1 & Hmax1 & Hends1).
  destruct (Hstep s effect2) as (Hstack2 & Hmax2 & Hends2).
  destruct (Hstep (processEffect FL s effect1) effect1) as (_ & _ & Hends11).
  destruct (Hstep (processEffect FL s effect1) effect2) as (Hstack12 & Hmax12 & Hends12).
  destruct (Hstep (processEffect FL s effect2) effect1) as (_ & _ & Hends21).
  rewrite Hstack1 in Hends11, Hends12. rewrite Hstack2 in Hends21.
  rewrite Hends11, Hends12, Hends21, Hends1, Hends2, Hstack12, Hmax12.
  split; [|split; [|by split]].
  - destruct (effectLocation effect1) as [location1|]; [|done].
    destruct (resolveLocation location1 _) as [index1|]; [|done].
    unfold get_or_empty. rewrite lookup_insert_eq. simpl.
    by rewrite insert_insert_eq, array_set_idemp.
  - destruct (effectLocation effect1) as [location1|],
             (effectLocation effect2) as [location2|]; try done.
    destruct (resolveLocation location1 _) as [index1|],
             (resolveLocation location2 _) as [index2|]; try done.
    apply markAlive_comm.
Qed.

(** A write into local 2 of frame 1, whose row has one slot, and a read of
    local 0 of frame 3, which was never opened. *)
Lemma X12_effects_idempotent_commute_witness :
  let s := processEvents (-1) initialState
             [ rawOpenFrame 1 "f" [] [Some (rawValue (JNumber 7))]; rawInstruction 2 ] in
  let event1 := rawWrite (localLocation 1 2) (JNumber 8) in
  let event2 := rawRead (localLocation 3 0) (JNumber 9) in
  localLifetimeEnds (processEvent (-1) (processEvent (-1) s event1) event2)
  = localLifetimeEnds (processEvent (-1) (processEvent (-1) s event2) event1) ∧
  localLifetimeEnds (processEvent (-1) (processEvent (-1) s event1) event2) !! Some 1
  = Some [Some 2; None; Some (-1)].
Proof.
  intros s event1 event2. split; [|by vm_compute].
  refine (proj1 (proj2 (X12_effects_idempotent_commute (-1) s
                          event1
                          {| Push := None; Pop := None;
                             Write := Some {| write_location := localLocation 1 2;
                                              root_value_after_write :=
                                                rawValue (JNumber 8) |};
                             Read := None |}
                          event2
                          {| Push := None; Pop := None; Write := None;
                             Read := Some {| read_location := localLocation 3 0;
                                             moved := false;
                                             root_value_read := rawValue (JNumber 9) |} |}
                          _ _))).
  - unfold isEffect. simpl. done.
  - unfold isEffect. simpl. done.
Defined.

(** ** Rows only grow *)

Lemma processParameters_length FL parameters (i : nat) paramValues lifetimeEnds :
  (length lifetimeEnds
   ≤ length (snd (processParameters FL parameters i paramValues lifetimeEnds)))%nat.
Proof.
  revert i paramValues lifetimeEnds.
  induction parameters as [|[param|] rest IH]; intros i paramValues lifetimeEnds;
    simpl; [lia| |apply IH].
  etrans; [|apply IH]. rewrite length_array_set. lia.
Qed.

Lemma processEvent_row_length FL s event key :
  (length (get_or_empty (localLifetimeEnds s) key)
   ≤ length (get_or_empty (localLifetimeEnds (processEvent FL s event)) key))%nat.
Proof.
  unfold processEvent.
  destruct (OpenFrame event) as [open|].
  { unfold processOpenFrame.
    pose proof (processParameters_length FL (parameters (frame open)) 0 []
                  (get_or_empty (localLifetimeEnds s) (Some (frame_id (frame open)))))
      as Hlen.
    destruct (processParameters _ _ _ _ _) as [paramValues lifetimeEnds].
    simpl in *. unfold get_or_empty in *.
    destruct (decide (Some (frame_id (frame open)) = key)) as [<-|Hkey].
    - by rewrite lookup_insert_eq.
    - by rewrite lookup_insert_ne. }
  destruct (CloseFrame event) as [close|]; [done|].
  destruct (Instruction event) as [instr|].
  { destruct (decide (key = currentFrameID (frameIDs s))) as [->|Hkey].
    - change (get_or_empty (localLifetimeEnds (processInstruction FL s instr))
                (currentFrameID (frameIDs s)))
        with (fst (rowsAt (processInstruction FL s instr) (currentFrameID (frameIDs s)))).
      by rewrite processInstruction_rows, instructionLoop_length.
    - destruct (processInstruction_rows_other FL s instr key Hkey) as [He _].
      unfold get_or_empty. by rewrite He. }
  destruct (Effect event) as [effect|]; [|done].
  unfold processEffect.
  destruct (effectLocation effect) as [location|]; [|done].
  destruct (resolveLocation location (currentFrameID (frameIDs s)))
    as [localIndex|] eqn:Hresolve.
  - rewrite (processJSONLocation_resolved FL _ _ _ _ Hresolve). simpl.
    unfold get_or_empty.
    destruct (decide (Some (locationFrame location) = key)) as [<-|Hkey].
    + rewrite lookup_insert_eq. simpl. rewrite length_array_set. lia.
    + by rewrite lookup_insert_ne.
  - by rewrite (processJSONLocation_unresolved FL _ _ _ Hresolve).
Qed.

Lemma processEvents_row_length FL (raw : list JSONTraceEvent) s key :
  (length (get_or_empty (localLifetimeEnds s) key)
   ≤ length (get_or_empty (localLifetimeEnds (processEvents FL s raw)) key))%nat.
Proof.
  revert s. induction raw as [|event raw IH]; intros s; [done|].
  simpl. etrans; [apply (processEvent_row_length FL s event key)|apply IH].
Qed.

(** X13.  No event ever shortens a row of the table of lifetime ends.  A
    read or write effect that resolves to slot [slot] of a row shorter than
    [slot + 1], or of a frame without a row, grows the row to exactly that
    length, and the slots it adds before [slot] are unset. *)
Theorem X13_rows_only_grow FL s (raw : list JSONTraceEvent) event effect location
    (slot : nat) :
  isEffect event effect →
  effectLocation effect = Some location →
  fst (processJSONLocation FL location (localLifetimeEnds s)
         (currentFrameID (frameIDs s))) = Some slot →
  let named := Some (locationFrame location) in
  let row := get_or_empty (localLifetimeEnds s) named in
  let row' := get_or_empty (localLifetimeEnds (processEvent FL s event)) named in
  (∀ key, (length (get_or_empty (localLifetimeEnds s) key)
           ≤ length (get_or_empty (localLifetimeEnds (processEvents FL s raw)) key))%nat) ∧
  length row' = (length row `max` S slot)%nat ∧
  (∀ j : nat, (length row ≤ j < slot)%nat → array_get row' j = None).
Proof.
  intros Heffect Hlocation Hslot named row row'. split.
  { intros key. apply processEvents_row_length. }
  rewrite processJSONLocation_index in Hslot.
  assert (row' = array_set row slot FL) as ->.
  { unfold row'. rewrite (processEvent_effect FL s event effect Heffect).
    unfold processEffect. rewrite Hlocation.
    rewrite (processJSONLocation_resolved FL _ _ _ _ Hslot). simpl.
    unfold get_or_empty at 1. by rewrite lookup_insert_eq. }
  split; [apply length_array_set|].
  intros j Hj. rewrite array_get_set_ne by lia. apply array_get_ge. lia.
Qed.

(** A write to local 3 of frame 5, which has no row. *)
Lemma X13_rows_only_grow_witness :
  let event := rawWrite (localLocation 5 3) (JNumber 1) in
  let s' := processEvent (-1) initialState event in
  localLifetimeEnds s' !! Some 5 = Some [None; None; None; Some (-1)] ∧
  length (get_or_empty (localLifetimeEnds s') (Some 5)) = 4%nat ∧
  array_get (get_or_empty (localLifetimeEnds s') (Some 5)) 1 = None.
Proof.
  intros event s'. split; [by vm_compute|].
  destruct (X13_rows_only_grow (-1) initialState [] event
              {| Push := None; Pop := None;
                 Write := Some {| write_location := localLocation 5 3;
                                  root_value_after_write := rawValue (JNumber 1) |};
                 Read := None |}
              (localLocation 5 3) 3)
    as (_ & Hlength & Hunset).
  - unfold isEffect. simpl. done.
  - reflexivity.
  - reflexivity.
  - split; [exact Hlength|]. apply (Hunset 1%nat).
    change (0 ≤ 1 < 3)%nat. lia.
Defined.

(** ** Instructions outside any frame *)

Lemma processEvent_undefined_rows FL s event :
  rowsAt s None = ([], []) → rowsAt (processEvent FL s event) None = ([], []).
Proof.
  intros Hrows. unfold processEvent.
  destruct (OpenFrame event) as [open|].
  { unfold processOpenFrame.
    destruct (processParameters _ _ _ _ _) as [paramValues lifetimeEnds].
    unfold rowsAt, get_or_empty in *. simpl. by rewrite lookup_insert_ne. }
  destruct (CloseFrame event) as [close|]; [done|].
  destruct (Instruction event) as [instr|].
  { destruct (currentFrameID (frameIDs s)) as [f|] eqn:Htop.
    - destruct (processInstruction_rows_other FL s instr None) as [He Hm];
        [by rewrite Htop|].
      unfold rowsAt, get_or_empty in *. by rewrite He, Hm.
    - pose proof (processInstruction_rows FL s instr) as Hloop.
      rewrite Htop in Hloop. rewrite Hloop.
      unfold rowsAt in Hrows. injection Hrows as -> ->. done. }
  destruct (Effect event) as [effect|]; [|done].
  unfold processEffect.
  destruct (effectLocation effect) as [location|]; [|done].
  destruct (resolveLocation location (currentFrameID (frameIDs s)))
    as [localIndex|] eqn:Hresolve.
  - rewrite (processJSONLocation_resolved FL _ _ _ _ Hresolve).
    unfold rowsAt, get_or_empty in *. simpl. by rewrite lookup_insert_ne.
  - by rewrite (processJSONLocation_unresolved FL _ _ _ Hresolve).
Qed.

Lemma processEvents_undefined_rows FL (raw : list JSONTraceEvent) s :
  rowsAt s None = ([], []) → rowsAt (processEvents FL s raw) None = ([], []).
Proof.
  revert s. induction raw as [|event raw IH]; intros s Hs; [done|].
  simpl. by apply IH, processEvent_undefined_rows.
Qed.

(** X14.  The rows an [Instruction] works on when no frame is open, those
    of the key [undefined], are empty at every point of the ingestion of a
    trace; such an instruction therefore records nothing: it stores the two
    empty rows under the key [undefined] and every row of either table
    reads as before. *)
Theorem X14_instruction_outside_frames FL (raw : list JSONTraceEvent) event instr :
  let s := processEvents FL initialState raw in
  let s' := processEvent FL s event in
  isInstruction event instr →
  frameIDs s = [] →
  rowsAt s None = ([], []) ∧
  localLifetimeEnds s' = <[None := []]> (localLifetimeEnds s) ∧
  locaLifetimeEndsMax s' = <[None := []]> (locaLifetimeEndsMax s) ∧
  ∀ key, rowsAt s' key = rowsAt s key.
Proof.
  intros s s' Hinstr Hempty.
  assert (rowsAt s None = ([], [])) as Hrows.
  { by apply processEvents_undefined_rows. }
  split; [done|].
  assert (localLifetimeEnds s' = <[None := []]> (localLifetimeEnds s) ∧
          locaLifetimeEndsMax s' = <[None := []]> (locaLifetimeEndsMax s))
    as [Hends Hmax].
  { unfold s'. rewrite (processEvent_instruction FL s event instr Hinstr).
    unfold processInstruction. simpl. rewrite Hempty.
    change (currentFrameID []) with (@None Z).
    unfold rowsAt in Hrows. injection Hrows as -> ->. done. }
  split; [done|]. split; [done|].
  intros key. unfold rowsAt. rewrite Hends, Hmax. unfold get_or_empty.
  destruct key as [f|].
  - by rewrite !lookup_insert_ne.
  - rewrite !lookup_insert_eq. symmetry. exact Hrows.
Qed.

(** An instruction after the only frame was closed. *)
Lemma X14_instruction_outside_frames_witness :
  let raw := [ rawOpenFrame 1 "f" [] [Some (rawValue (JNumber 7))]; rawCloseFrame 1 ] in
  let s := processEvents (-1) initialState raw in
  let s' := processEvent (-1) s (rawInstruction 4) in
  frameIDs s = [] ∧
  localLifetimeEnds s' !! None = Some [] ∧
  rowsAt s' (Some 1) = rowsAt s (Some 1).
Proof.
  intros raw s s'.
  assert (frameIDs s = []) as Hempty by reflexivity.
  split; [exact Hempty|].
  destruct (X14_instruction_outside_frames (-1) raw (rawInstruction 4)
              {| instr_gas_left := 0; instruction := "NOP"; pc := 4 |})
    as (_ & Hends & _ & Hrows).
  - unfold isInstruction. simpl. done.
  - exact Hempty.
  - split; [|exact (Hrows (Some 1))].
    fold s s' in Hends. rewrite Hends. apply lookup_insert_eq.
Defined.

(** ** The frame a canonical write carries *)

(** X16.  When the [frameId] of a canonical write event returned by
    [readTrace] is defined, it is the id of an [OpenFrame] event that comes
    before the effect in the raw trace, and the returned table has a row for
    it; when the location of the raw effect is [Indexed], it is also the
    frame id the location names. *)
Theorem X16_write_frame_was_opened FL raw version trace (n : nat) f localIndex decoded :
  readTrace FL (traceFile raw version) = inr trace →
  trace_events trace !! n
  = Some (EffectEvent (WriteEffect (LocalTraceLocation (Some f) localIndex) decoded)) →
  is_Some (trace_localLifetimeEnds trace !! Some f) ∧
  ∃ pre event post effect w opening open,
    raw = pre ++ event :: post ∧
    isEffect event effect ∧ Write effect = Some w ∧
    opening ∈ pre ∧ isOpenFrame opening open ∧ frame_id (frame open) = f ∧
    (∀ Indexed, write_location w = IndexedLocation Indexed →
                fst (Local (fst Indexed)) = f).
Proof.
  unfold traceFile. rewrite readTrace_parsed. intros [= <-]. cbn [trace_events].
  intros Hn.
  destruct (processEvents_event_origin FL raw n _ Hn)
    as (pre & event & post & -> & Hle & Hemitted).
  cbv zeta in Hle, Hemitted.
  destruct (emittedEvents_write_inv _ _ _ _ _ _ Hemitted)
    as (effect & w & Heffect & Hwrite & Hk & Htop & Hresolve & _).
  symmetry in Htop.
  pose proof (currentFrameID_elem_of _ _ Htop) as Hstack.
  cbn [trace_localLifetimeEnds]. split.
  - rewrite processEvents_app. apply processEvents_row_kept.
    apply processEvents_stack_rows; [|done]. by intros g Hg%elem_of_nil.
  - destruct (processEvents_stack_origin FL pre initialState f Hstack)
      as [Hinit | (opening & open & Hin & Hopen & Hid)].
    { by apply elem_of_nil in Hinit. }
    exists pre, event, post, effect, w, opening, open.
    repeat (split; [done|]).
    intros Indexed Hindexed. rewrite Hindexed, Htop in Hresolve. simpl in Hresolve.
    case_decide; [congruence|done].
Qed.

(** Frames 1 and 2 are open and a write names local 0 of frame 1: the
    canonical write carries frame 2, which was opened before. *)
Lemma X16_write_frame_was_opened_witness :
  let raw := [ rawOpenFrame 1 "f" [] [Some (rawValue (JNumber 7))];
               rawOpenFrame 2 "g" [] [];
               rawWrite (localLocation 1 0) (JNumber 9) ] in
  ∃ trace,
    readTrace (-1) (traceFile raw None) = inr trace ∧
    trace_events trace !! 2%nat
    = Some (EffectEvent (WriteEffect (LocalTraceLocation (Some 2) 0)
                                     (RuntimeTraceValue (RString "9")))) ∧
    is_Some (trace_localLifetimeEnds trace !! Some 2).
Proof.
  intros raw. eexists. split; [reflexivity|].
  assert (st_events (processEvents (-1) initialState raw) !! 2%nat
          = Some (EffectEvent (WriteEffect (LocalTraceLocation (Some 2) 0)
                                           (RuntimeTraceValue (RString "9")))))
    as Hwrite by (by vm_compute).
  split; [exact Hwrite|].
  exact (proj1 (X16_write_frame_was_opened (-1) raw None _ 2 2 0 _ eq_refl Hwrite)).
Defined.

(** ** Properly nested traces leave the stack as they found it *)

Lemma removelast_snoc (stack : list Z) (f : Z) : removelast (stack ++ [f]) = stack.
Proof. apply removelast_last. Qed.

Lemma processEvents_well_nested FL (raw : list JSONTraceEvent) s :
  wellNested raw → frameIDs (processEvents FL s raw) = frameIDs s.
Proof.
  intros Hnested. revert s.
  induction Hnested
    as [|event rest [Hopen Hclose] _ IHrest
        |opening open body closing close rest Hopen [Hnone Hclose] _ IHbody _ IHrest];
    intros s.
  - done.
  - rewrite processEvents_cons, IHrest, processEvent_frameIDs.
    unfold stackAfter. by rewrite Hopen, Hclose.
  - rewrite processEvents_cons, processEvents_app, processEvents_cons.
    rewrite IHrest, processEvent_frameIDs, IHbody, processEvent_frameIDs.
    unfold stackAfter, isOpenFrame in *. rewrite Hnone, Hclose, Hopen.
    apply removelast_snoc.
Qed.

(** X17.  Properly nested raw events leave the stack of open frames as
    they found it: after a whole properly nested trace no frame is open, and
    after an [OpenFrame] followed by properly nested events the frame that
    was opened is the topmost one, so that the instructions and effects that
    follow are accounted to it. *)
Theorem X17_well_nested_stack FL s (raw body : list JSONTraceEvent) opening open :
  wellNested raw → isOpenFrame opening open → wellNested body →
  frameIDs (processEvents FL s raw) = frameIDs s ∧
  frameIDs (processEvents FL initialState raw) = [] ∧
  frameIDs (processEvents FL s (opening :: body)) = frameIDs s ++ [frame_id (frame open)] ∧
  currentFrameID (frameIDs (processEvents FL s (opening :: body)))
  = Some (frame_id (frame open)).
Proof.
  intros Hraw Hopen Hbody.
  split; [by apply processEvents_well_nested|].
  split; [by rewrite processEvents_well_nested|].
  assert (frameIDs (processEvents FL s (opening :: body))
          = frameIDs s ++ [frame_id (frame open)]) as Hstack.
  { rewrite processEvents_cons, processEvents_well_nested by done.
    rewrite processEvent_frameIDs. unfold stackAfter, isOpenFrame in *.
    by rewrite Hopen. }
  split; [done|]. rewrite Hstack. unfold currentFrameID. apply last_snoc.
Qed.

(** Frame 2 is called and returns inside frame 1. *)
Lemma X17_well_nested_stack_witness :
  let body := [ rawInstruction 0;
                rawOpenFrame 2 "g" [] [];
                rawInstruction 0;
                rawCloseFrame 2;
                rawInstruction 1 ] in
  let raw := rawOpenFrame 1 "f" [] [] :: body ++ rawCloseFrame 1 :: [] in
  wellNested body ∧ wellNested raw ∧
  frameIDs (processEvents (-1) initialState raw) = [] ∧
  currentFrameID (frameIDs (processEvents (-1) initialState
                              (rawOpenFrame 1 "f" [] [] :: body))) = Some 1.
Proof.
  intros body raw.
  assert (wellNested body) as Hbody.
  { apply wellNested_step; [by split|].
    apply (wellNested_frame (rawOpenFrame 2 "g" [] []) _ [rawInstruction 0]
             (rawCloseFrame 2) _ [rawInstruction 1]
             eq_refl (conj eq_refl eq_refl)).
    - apply wellNested_step; [by split|]. apply wellNested_nil.
    - apply wellNested_step; [by split|]. apply wellNested_nil. }
  assert (wellNested raw) as Hraw.
  { apply (wellNested_frame (rawOpenFrame 1 "f" [] []) _ body (rawCloseFrame 1) _ []
             eq_refl (conj eq_refl eq_refl) Hbody wellNested_nil). }
  split; [exact Hbody|]. split; [exact Hraw|].
  destruct (X17_well_nested_stack (-1) initialState raw body
              (rawOpenFrame 1 "f" [] []) _ Hraw eq_refl Hbody)
    as (_ & Hempty & _ & Htop).
  split; [exact Hempty|exact Htop].
Defined.

(** ** Where an end of life comes from *)

(** X18.  An end of life in the table that is not the sentinel is the
    program counter of an [Instruction] event of the trace, one that was
    processed while the frame of that row was the topmost open frame: the
    analysis never stores a pc of another frame's instruction and never
    invents a value. *)
Theorem X18_end_of_life_provenance FL (raw : list JSONTraceEvent) key (i : nat) e :
  let s := processEvents FL initialState raw in
  array_get (get_or_empty (localLifetimeEnds s) key) i = Some e →
  e ≠ FL →
  ∃ pre event post instr,
    raw = pre ++ event :: post ∧
    isInstruction event instr ∧ pc instr = e ∧
    currentFrameID (frameIDs (processEvents FL initialState pre)) = key.
Proof.
  simpl. revert e.
  induction raw as [|event raw IH] using rev_ind; intros e He Hne.
  { by vm_compute in He. }
  rewrite processEvents_snoc in He.
  assert (∀ e0, array_get (get_or_empty (localLifetimeEnds
                                           (processEvents FL initialState raw)) key) i
                = Some e0 → e0 ≠ FL →
                ∃ pre event0 post instr,
                  raw ++ [event] = pre ++ event0 :: post ∧
                  isInstruction event0 instr ∧ pc instr = e0 ∧
                  currentFrameID (frameIDs (processEvents FL initialState pre)) = key)
    as Hold.
  { intros e0 He0 Hne0.
    destruct (IH e0 He0 Hne0) as (pre & event0 & post & instr & -> & Hinstr & Hpc & Htop).
    exists pre, event0, (post ++ [event]), instr.
    split; [by rewrite <- app_assoc|]. by split. }
  pose proof (processEvent_slot FL (processEvents FL initialState raw) event key i)
    as Hslot.
  cbv zeta in Hslot. unfold slotOf, rowsAt in Hslot. simpl in Hslot.
  destruct Hslot as [Hsame | [Halive | (instr & Hinstr & Htop & Hstep)]].
  - injection Hsame as Hsame _. rewrite Hsame in He. by apply Hold.
  - injection Halive as Halive _. rewrite Halive in He. congruence.
  - unfold slotInstruction in Hstep. simpl in Hstep.
    destruct (unset_or_alive FL _ && unset_or_below _ _).
    + injection Hstep as Hstep _. rewrite Hstep in He. injection He as <-.
      exists raw, event, [], instr.
      split; [done|]. split; [exact Hinstr|]. split; [done|]. by symmetry.
    + injection Hstep as Hstep _. rewrite Hstep in He. by apply Hold.
Qed.

(** In the loop with the read at pc 12 the end of life 13 is the pc of an
    instruction of frame 1. *)
Lemma X18_end_of_life_provenance_witness :
  let s := processEvents (-1) initialState (loopTrace 12) in
  array_get (get_or_empty (localLifetimeEnds s) (Some 1)) 0 = Some 13 ∧
  ∃ pre event post instr,
    loopTrace 12 = pre ++ event :: post ∧
    isInstruction event instr ∧ pc instr = 13 ∧
    currentFrameID (frameIDs (processEvents (-1) initialState pre)) = Some 1.
Proof.
  intros s.
  assert (array_get (get_or_empty (localLifetimeEnds s) (Some 1)) 0 = Some 13)
    as Hend by (by vm_compute).
  split; [exact Hend|].
  apply (X18_end_of_life_provenance (-1) (loopTrace 12) (Some 1) 0 13 Hend). lia.
Defined.
